(** * Unique-distance placements on a grid: a model of
      [mpmp7_unique_distances.py] and the properties of its search engine.

    Python integers are unbounded, so they are [Z].  A point is a tuple of
    integers ([list Z]); a placement handed to the symmetry code is a Python
    [set] of points ([gset point]).  An exception raised by the program
    (the only one reachable in the engine is the [IndexError] of a tuple
    subscript) is the [None] of the [option] monad.  The grid dimension and
    the number of counters only ever count loop rounds and tuple positions,
    so they are [nat]: negative values, for which [2**size.dim] is a float
    and [combinations] refuses its argument, are not modelled.  The width
    and all coordinates are [Z]. *)

From Stdlib Require Import ZArith Lia Arith Ascii.
From stdpp Require Import base numbers option list sets gmap sorting strings.

Open Scope Z_scope.

(** ** Data model *)

(** A point is a tuple of integer coordinates. *)
Abbreviation point := (list Z).

(** [class Size]: the dimension and width of the grid. *)
Record Size := mkSize { dim : nat; width : Z }.

(** What a Python call can hand back where the source mixes [True] with
    falling off the end of the function body. *)
Inductive pyobj := PyBool (b : bool) | PyNone.

(** The truth value Python gives an object in an [if]. *)
Definition truthy (v : pyobj) : bool :=
  match v with PyBool b => b | PyNone => false end.

(** ** Built-ins and itertools *)

(** [range(n)] for an integer [n]: empty when [n <= 0]. *)
Definition range (n : Z) : list Z := Z.of_nat <$> seq 0 (Z.to_nat n).

(** [sum(...)] over integers. *)
Definition sum (l : list Z) : Z := foldl Z.add 0 l.

(** [itertools.product] of the lists [ls]: the last axis varies fastest. *)
Fixpoint product {A} (ls : list (list A)) : list (list A) :=
  match ls with
  | [] => [[]]
  | l :: ls' => x ← l; cons x <$> product ls'
  end.

(** [itertools.combinations(l, r)]: position-lexicographic order. *)
Fixpoint combinations {A} (l : list A) (r : nat) : list (list A) :=
  match r, l with
  | O, _ => [[]]
  | S _, [] => []
  | S r', x :: l' => (cons x <$> combinations l' r') ++ combinations l' r
  end.

(** [combinations(l, 2)] with each tuple unpacked as [p, q]. *)
Fixpoint combinations2 {A} (l : list A) : list (A * A) :=
  match l with
  | [] => []
  | p :: l' => (pair p <$> l') ++ combinations2 l'
  end.

(** The tuples of [itertools.permutations], in position-lexicographic
    order: pick each position in turn, then permute what is left.  One
    position goes per round, so [n = length l] rounds are run. *)
Fixpoint permutations_rounds {A} (n : nat) (l : list A) : list (list A) :=
  match n with
  | O => [[]]
  | S n' =>
      i ← seq 0 (length l);
      match l !! i with
      | Some x => cons x <$> permutations_rounds n' (delete i l)
      | None => []
      end
  end.

(** [itertools.permutations(l)]. *)
Definition permutations {A} (l : list A) : list (list A) :=
  permutations_rounds (length l) l.

(** ** Grid geometry *)

(** The square of the distance between two points; [zip] stops at the end
    of the shorter one. *)
Definition distance_squared (p q : point) : Z :=
  sum ((λ '(p, q), (p - q) ^ 2) <$> zip p q).

(** Round [i] of the loop of [numpositions]: multiply, floor-divide, count
    down. *)
Definition numpositions_step (st : Z * Z) (i : nat) : Z * Z :=
  let '(total, choices) := st in
  let total := total * choices in
  let total := total `div` (Z.of_nat i + 1) in
  (total, choices - 1).

(** The state [(total, choices)] after the rounds [i] of [rounds]. *)
Definition numpositions_loop (size : Size) (rounds : list nat) : Z * Z :=
  foldl numpositions_step (1, width size ^ Z.of_nat (dim size)) rounds.

(** The number of arrangements of [ncounters] counters on the grid. *)
Definition numpositions (size : Size) (ncounters : nat) : Z :=
  fst (numpositions_loop size (seq 0 ncounters)).

(** All points of the grid, in the order in which they are generated. *)
Definition generatepoints (size : Size) : list point :=
  product (replicate (dim size) (range (width size))).

(** All arrangements of [ncounters] counters, as tuples of points. *)
Definition generatearrangements (size : Size) (ncounters : nat)
  : list (list point) :=
  combinations (generatepoints size) ncounters.

(** ** Uniqueness filter *)

(** The loop of [hasuniquedistance] over the remaining pairs, with the set
    [distances] seen so far. *)
Fixpoint hasuniquedistance_loop (distances : gset Z)
    (pairs : list (point * point)) : bool :=
  match pairs with
  | [] => true
  | (p, q) :: pairs' =>
      let d := distance_squared p q in
      if decide (d ∈ distances) then false
      else hasuniquedistance_loop ({[d]} ∪ distances) pairs'
  end.

(** [pieces] is listed in the order in which Python iterates it. *)
Definition hasuniquedistance (pieces : list point) : bool :=
  hasuniquedistance_loop ∅ (combinations2 pieces).

(** ** Symmetry reducer *)

(** The first [n] values of the generator [bitgen(num)]; [zip] against a
    permutation of length [n] pulls exactly that many. *)
Fixpoint bitgen (num : Z) (n : nat) : list Z :=
  match n with
  | O => []
  | S n' => Z.land num 1 :: bitgen (Z.shiftr num 1) n'
  end.

(** Reflect one coordinate when [bit] is set. *)
Definition doflip (size : Size) (x bit : Z) : Z :=
  if decide (bit ≠ 0) then width size - 1 - x else x.

(** [p[i]] raises [IndexError] past the end of the tuple. *)
Definition rotatepoint (size : Size) (flip : Z) (perm : list nat)
    (p : point) : option point :=
  mapM (λ '(bit, i), x ← p !! i; Some (doflip size x bit))
       (zip (bitgen flip (length perm)) perm).

(** The set of the rotated points of [a]. *)
Definition rotatearragement (size : Size) (flip : Z) (perm : list nat)
    (a : gset point) : option (gset point) :=
  list_to_set <$> mapM (rotatepoint size flip perm) (elements a).

(** A [for] loop whose body may raise (outer [None]), [return] a value
    (inner [Some]) or fall through to the next round (inner [None]). *)
Fixpoint for_return {A R} (body : A → option (option R)) (l : list A)
  : option (option R) :=
  match l with
  | [] => Some None
  | x :: l' =>
      r ← body x;
      match r with
      | Some v => Some (Some v)
      | None => for_return body l'
      end
  end.

(** The body of [istransformof] ends without a [return]: when no round
    returns, the call yields [None]. *)
Definition istransformof (size : Size) (a b : gset point) : option pyobj :=
  r ← for_return (λ flip,
         for_return (λ perm,
           a' ← rotatearragement size flip perm a;
           Some (if decide (a' = b) then Some (PyBool true) else None))
         (permutations (seq 0 (dim size))))
       (range (2 ^ Z.of_nat (dim size)));
  Some (default PyNone r).

(** Is [a] a transform of an entry of [solutions]?  The first entry that
    matches returns [True]; after the loop comes [return False]. *)
Definition containstransform (size : Size) (solutions : list (gset point))
    (a : gset point) : option bool :=
  r ← for_return (λ b,
         t ← istransformof size a b;
         Some (if truthy t then Some true else None))
       solutions;
  Some (default false r).

(** One round of the loop of [solvegrid] (the printing under
    [args.verbose] does not touch [solutions] and is left out). *)
Definition solvegrid_step (size : Size) (solutions : list (gset point))
    (pieces : list point) : option (list (gset point)) :=
  let pieces : gset point := list_to_set pieces in
  if hasuniquedistance (elements pieces) then
    c ← containstransform size solutions pieces;
    if negb c then Some (solutions ++ [pieces]) else Some solutions
  else Some solutions.

(** The list [solutions] after the candidates [cands] have been handled,
    one after the other. *)
Fixpoint solvegrid_loop (size : Size) (solutions : list (gset point))
    (cands : list (list point)) : option (list (gset point)) :=
  match cands with
  | [] => Some solutions
  | pieces :: cands' =>
      solutions' ← solvegrid_step size solutions pieces;
      solvegrid_loop size solutions' cands'
  end.

(** All solutions for the grid, up to rotation and reflection.  The
    parameter [args] only switches the printing and is left out. *)
Definition solvegrid (size : Size) (ncounters : nat)
  : option (list (gset point)) :=
  solvegrid_loop size [] (generatearrangements size ncounters).

(** ** Printing *)

(** What [print] sends to the output: characters, and for [print(pieces)]
    the text Python chooses for a set, which is kept as the set itself. *)
Inductive printed := Chr (c : Ascii.ascii) | Obj (pieces : gset point).

Definition newline : Ascii.ascii := "010"%char.

(** The characters of [print(s, end="")]. *)
Definition text (s : String.string) : list printed :=
  Chr <$> String.list_ascii_of_string s.

(** ["*"] for an occupied cell, ["."] for a free one. *)
Definition mark (pieces : gset point) (p : point) : list printed :=
  if decide (p ∈ pieces) then text "*" else text ".".

(** Pretty print an arrangement; only 2 and 3 dimensional grids are drawn,
    for the others the set itself is printed. *)
Definition printarrangement (size : Size) (pieces : gset point)
  : list printed :=
  if decide (dim size = 2%nat) then
    y ← range (width size);
    (x ← range (width size); mark pieces [x; y]) ++ [Chr newline]
  else if decide (dim size = 3%nat) then
    y ← range (width size);
    (z ← range (width size);
     (x ← range (width size); mark pieces [x; y; z]) ++ text "  ")
    ++ [Chr newline]
  else [Obj pieces; Chr newline].

(** One round of the loop of [solvegrid] with its printing: [verbose] is
    [args.verbose] and [out] what has been printed so far. *)
Definition solvegrid_step_out (verbose : bool) (size : Size)
    (st : list (gset point) * list printed) (pieces : list point)
  : option (list (gset point) * list printed) :=
  let '(solutions, out) := st in
  let pieces : gset point := list_to_set pieces in
  if hasuniquedistance (elements pieces) then
    c ← containstransform size solutions pieces;
    if negb c then
      let solutions := solutions ++ [pieces] in
      if verbose then
        Some (solutions,
              out ++ (text "-----" ++ [Chr newline])
                  ++ printarrangement size pieces
                  ++ [Chr newline])
      else Some (solutions, out)
    else Some (solutions, out)
  else Some (solutions, out).

Fixpoint solvegrid_loop_out (verbose : bool) (size : Size)
    (st : list (gset point) * list printed) (cands : list (list point))
  : option (list (gset point) * list printed) :=
  match cands with
  | [] => Some st
  | pieces :: cands' =>
      st' ← solvegrid_step_out verbose size st pieces;
      solvegrid_loop_out verbose size st' cands'
  end.

(** [solvegrid(args, size, ncounters)] with what it prints. *)
Definition solvegrid_out (verbose : bool) (size : Size) (ncounters : nat)
  : option (list (gset point) * list printed) :=
  solvegrid_loop_out verbose size ([], [])
    (generatearrangements size ncounters).

(** ** Notions used to state the properties *)

(** The binomial coefficient, by Pascal's rule. *)
Fixpoint binom (n k : nat) : nat :=
  match k, n with
  | O, _ => 1
  | S _, O => 0
  | S k', S n' => binom n' k' + binom n' k
  end%nat.

(** A point of the grid: [dim] coordinates, each in [[0, width)]. *)
Definition ingrid (size : Size) (p : point) : Prop :=
  length p = dim size ∧ Forall (λ x, 0 ≤ x < width size) p.

(** A placement all of whose points lie on the grid. *)
Definition gridplacement (size : Size) (a : gset point) : Prop :=
  ∀ p, p ∈ a → ingrid size p.

(** [b] is the image of [a] under one of the [2^dim * dim!] transforms. *)
Definition transform_of (size : Size) (a b : gset point) : Prop :=
  ∃ flip perm,
    0 ≤ flip < 2 ^ Z.of_nat (dim size) ∧ perm ≡ₚ seq 0 (dim size) ∧
    rotatearragement size flip perm a = Some b.

(** What [solvegrid] maintains: a later entry is never a transform of an
    earlier one, and every entry passes the uniqueness filter. *)
Definition solutions_inv (size : Size) (solutions : list (gset point))
  : Prop :=
  (∀ i j si sj,
     (i < j)%nat → solutions !! i = Some si → solutions !! j = Some sj →
     ¬ transform_of size sj si) ∧
  (∀ s, s ∈ solutions → hasuniquedistance (elements s) = true).

(** Bit [k] of the reflection mask, as [bitgen] yields it. *)
Definition flipbit (flip : Z) (k : nat) : Z :=
  Z.land (Z.shiftr flip (Z.of_nat k)) 1.

(** The integer whose bits, lowest first, are [bits]. *)
Definition bits_to_Z (bits : list Z) : Z :=
  foldr (λ bit acc, bit + 2 * acc) 0 bits.

(** Where each axis sits in a permutation: the inverse permutation. *)
Definition invperm (perm : list nat) : list nat :=
  (λ j, default 0%nat (fst <$> list_find (λ i, i = j) perm))
    <$> seq 0 (length perm).

(** The reflection mask that undoes [flip] after the axes were permuted. *)
Definition invflip (flip : Z) (perm : list nat) : Z :=
  bits_to_Z (flipbit flip <$> invperm perm).

(** [(flip', perm')] undoes [(flip, perm)] on points with [d] axes. *)
Definition inverse_transform (d : nat) (flip : Z) (perm : list nat)
    (flip' : Z) (perm' : list nat) : Prop :=
  length perm' = d ∧
  ∀ j, (j < d)%nat →
    ∃ k, perm' !! j = Some k ∧ perm !! k = Some j ∧
         flipbit flip' j = flipbit flip k.

(** The dictionary order on points with the same number of coordinates. *)
Fixpoint lex_lt (p q : point) : Prop :=
  match p, q with
  | x :: p', y :: q' => x < y ∨ (x = y ∧ lex_lt p' q')
  | _, _ => False
  end.

(** The marks among the printed characters, and the stars among them. *)
Definition is_mark (t : printed) : bool :=
  match t with
  | Chr c => bool_decide (c = "*"%char) || bool_decide (c = "."%char)
  | Obj _ => false
  end.

Definition is_star (t : printed) : bool :=
  match t with Chr c => bool_decide (c = "*"%char) | Obj _ => false end.

(** The cells of the grid in the order in which [printarrangement] visits
    them. *)
Definition cells (size : Size) : list point :=
  if decide (dim size = 2%nat) then
    y ← range (width size); x ← range (width size); [[x; y]]
  else if decide (dim size = 3%nat) then
    y ← range (width size); z ← range (width size);
    x ← range (width size); [[x; y; z]]
  else [].

(** What [solvegrid] prints for one solution when [args.verbose] is set. *)
Definition solution_block (size : Size) (pieces : gset point)
  : list printed :=
  (text "-----" ++ [Chr newline]) ++ printarrangement size pieces
    ++ [Chr newline].

(** The permutation that applies [perm1] and then [perm2]. *)
Definition composeperm (perm1 perm2 : list nat) : list nat :=
  (λ k, default 0%nat (perm1 !! k)) <$> perm2.

(** The reflection mask of [(flip1, perm1)] followed by [(flip2, perm2)]:
    output axis [j] is reflected when exactly one of the two steps reflects
    the coordinate that ends up there. *)
Definition composeflip (flip1 flip2 : Z) (perm2 : list nat) : Z :=
  bits_to_Z (imap (λ j k, Z.lxor (flipbit flip2 j) (flipbit flip1 k)) perm2).

(** The state of [solvegrid] once the candidates [handled] are behind it:
    besides [solutions_inv], every entry of [solutions] is one of the
    candidates, and every candidate that passes the uniqueness filter is a
    transform of some entry. *)
Definition solutions_rep (size : Size) (handled : list (list point))
    (solutions : list (gset point)) : Prop :=
  solutions_inv size solutions ∧
  (∀ s, s ∈ solutions → ∃ c, c ∈ handled ∧ s = list_to_set c) ∧
  (∀ c, c ∈ handled →
     hasuniquedistance (elements (list_to_set c : gset point)) = true →
     ∃ s, s ∈ solutions ∧ transform_of size (list_to_set c) s).

(** Candidate number [k] of [handled] passes the uniqueness filter and is
    not a transform of any earlier candidate that passes it. *)
Definition first_of_class (size : Size) (handled : list (list point))
    (k : nat) (c : list point) : Prop :=
  handled !! k = Some c ∧
  hasuniquedistance (elements (list_to_set c : gset point)) = true ∧
  ∀ k' c', (k' < k)%nat → handled !! k' = Some c' →
    hasuniquedistance (elements (list_to_set c' : gset point)) = true →
    ¬ transform_of size (list_to_set c) (list_to_set c').

(** The entries of [solutions] are those candidates, in the order in which
    they were handled. *)
Definition solutions_first (size : Size) (handled : list (list point))
    (solutions : list (gset point)) : Prop :=
  solutions `sublist_of` (list_to_set <$> handled) ∧
  ∀ s, s ∈ solutions ↔
       ∃ k c, first_of_class size handled k c ∧ s = list_to_set c.

Implicit Types (size : Size) (flip : Z) (perm : list nat).
Implicit Types (a b : gset point) (solutions : list (gset point)).

(** * Properties *)

(** ** Sums and squared distances *)

Lemma foldl_add_acc (l : list Z) (a : Z) : foldl Z.add a l = a + sum l.
Proof.
  unfold sum. revert a. induction l as [|x l IH]; intros a; simpl; [lia|].
  rewrite (IH (a + x)), (IH (0 + x)). lia.
Qed.

Lemma sum_cons (x : Z) (l : list Z) : sum (x :: l) = x + sum l.
Proof. unfold sum at 1. simpl. apply foldl_add_acc. Qed.

Lemma distance_squared_cons (x y : Z) (p q : point) :
  distance_squared (x :: p) (y :: q) = (x - y) ^ 2 + distance_squared p q.
Proof. unfold distance_squared. simpl zip. rewrite fmap_cons. apply sum_cons. Qed.

Lemma distance_squared_prefix (p q : point) :
  distance_squared p q =
  sum ((λ i, (nth i p 0 - nth i q 0) ^ 2) <$> seq 0 (min (length p) (length q))).
Proof.
  revert q. induction p as [|x p IH]; intros [|y q]; try reflexivity.
  rewrite distance_squared_cons, IH. simpl length. simpl Nat.min.
  rewrite <- cons_seq, fmap_cons, sum_cons. simpl nth at 1 2.
  by rewrite <- fmap_S_seq, <- list_fmap_compose.
Qed.

(** C10: [distance_squared] has no failure path: on points of different
    lengths it yields the sum of the squared differences over the common
    prefix of coordinates, and [distance_squared((0,0), (0,))] is [0]. *)
Theorem distance_squared_length_mismatch :
  (∀ p q : point, ∃ d : Z,
      distance_squared p q = d ∧
      d = sum ((λ i, (nth i p 0 - nth i q 0) ^ 2)
                 <$> seq 0 (min (length p) (length q)))) ∧
  distance_squared [0; 0] [0] = 0.
Proof.
  split; [|reflexivity].
  intros p q. eexists. split; [reflexivity|]. apply distance_squared_prefix.
Qed.

(** ** Counting arrangements *)

Lemma binom_0_r (n : nat) : binom n 0 = 1%nat.
Proof. by destruct n. Qed.

Lemma binom_gt (n k : nat) : (n < k)%nat → binom n k = 0%nat.
Proof.
  revert k. induction n as [|n IH]; intros [|k] Hk; simpl; try lia.
  rewrite !IH by lia. lia.
Qed.

(** The absorption identity behind the multiply/divide loop. *)
Lemma binom_absorb (n k : nat) :
  Z.of_nat (binom n (S k)) * (Z.of_nat k + 1) =
  Z.of_nat (binom n k) * (Z.of_nat n - Z.of_nat k).
Proof.
  revert k. induction n as [|n IH]; intros k.
  - destruct k; simpl; lia.
  - destruct k as [|k].
    + specialize (IH 0%nat). rewrite binom_0_r in IH.
      change (binom (S n) 1) with (binom n 0 + binom n 1)%nat.
      rewrite binom_0_r. simpl binom. lia.
    + pose proof (IH k) as IH1. pose proof (IH (S k)) as IH2.
      change (binom (S n) (S (S k))) with (binom n (S k) + binom n (S (S k)))%nat.
      change (binom (S n) (S k)) with (binom n k + binom n (S k))%nat.
      lia.
Qed.

Lemma binom_fact (n k : nat) :
  (k ≤ n)%nat → (binom n k * fact k * fact (n - k) = fact n)%nat.
Proof.
  revert n. induction k as [|k IH]; intros n Hk.
  - rewrite binom_0_r, Nat.sub_0_r. simpl. lia.
  - pose proof (binom_absorb n k) as Ha. specialize (IH n ltac:(lia)).
    replace (n - k)%nat with (S (n - S k)) in IH by lia.
    change (fact (S k)) with (S k * fact k)%nat.
    change (fact (S (n - S k))) with (S (n - S k) * fact (n - S k))%nat in IH.
    assert (binom n (S k) * S k = binom n k * S (n - S k))%nat as He.
    { apply Nat2Z.inj. rewrite !Nat2Z.inj_mul.
      replace (Z.of_nat (S k)) with (Z.of_nat k + 1) by lia.
      replace (Z.of_nat (S (n - S k))) with (Z.of_nat n - Z.of_nat k) by lia.
      exact Ha. }
    rewrite <- IH, (Nat.mul_assoc (binom n (S k))), He.
    generalize (binom n k) (fact k) (fact (n - S k)) (S (n - S k)).
    intros b f g m. lia.
Qed.

Section numpositions.
Variable size : Size.
Variable N : nat.
Hypothesis HN : width size ^ Z.of_nat (dim size) = Z.of_nat N.

(** After [i] rounds the running total is [C(N, i)]. *)
Lemma numpositions_loop_binom (i : nat) :
  numpositions_loop size (seq 0 i) =
  (Z.of_nat (binom N i), Z.of_nat N - Z.of_nat i).
Proof.
  unfold numpositions_loop. induction i as [|i IH].
  - simpl. rewrite binom_0_r, HN. f_equal. lia.
  - rewrite seq_S, foldl_app, IH. simpl. f_equal; [|lia].
    rewrite <- binom_absorb. apply Z.div_mul. lia.
Qed.

Lemma numpositions_loop_exact (i : nat) :
  let '(total, choices) := numpositions_loop size (seq 0 i) in
  (total * choices) `mod` (Z.of_nat i + 1) = 0.
Proof.
  rewrite numpositions_loop_binom, <- binom_absorb. apply Z.mod_mul. lia.
Qed.
End numpositions.

(** C3: for a positive dimension and width and [0 < n ≤ width^dimension],
    [numpositions] is the binomial coefficient [C(width^dimension, n)]
    (the number [N! / (n! (N-n)!)] for [N = width^dimension]), and
    in every round of its loop the floor division is exact: the product
    [total * choices] is a multiple of [i + 1] and the running total is
    [C(width^dimension, i)]. *)
Theorem numpositions_binomial (size : Size) (n : nat) :
  (0 < dim size)%nat → 0 < width size →
  (0 < n)%nat → Z.of_nat n ≤ width size ^ Z.of_nat (dim size) →
  let N := Z.to_nat (width size ^ Z.of_nat (dim size)) in
  numpositions size n = Z.of_nat (binom N n) ∧
  (binom N n * fact n * fact (N - n) = fact N)%nat ∧
  ∀ i, (i < n)%nat →
    let '(total, choices) := numpositions_loop size (seq 0 i) in
    total = Z.of_nat (binom N i) ∧
    (total * choices) `mod` (Z.of_nat i + 1) = 0 ∧
    fst (numpositions_loop size (seq 0 (S i))) * (Z.of_nat i + 1) =
      total * choices.
Proof.
  intros Hd Hw Hn Hle N.
  assert (HN : width size ^ Z.of_nat (dim size) = Z.of_nat N) by (subst N; lia).
  split_and!.
  - unfold numpositions. by rewrite (numpositions_loop_binom _ _ HN).
  - apply binom_fact. lia.
  - intros i Hi. pose proof (numpositions_loop_exact _ _ HN i) as Hex.
    rewrite (numpositions_loop_binom _ _ HN (S i)).
    rewrite (numpositions_loop_binom _ _ HN i) in *.
    split; [done|]. split; [done|]. simpl fst. apply binom_absorb.
Qed.

Lemma numpositions_binomial_witness :
  numpositions (mkSize 2 3) 3 = 84 ∧
  (binom 9 3 * fact 3 * fact (9 - 3) = fact 9)%nat ∧
  ∀ i, (i < 3)%nat →
    let '(total, choices) := numpositions_loop (mkSize 2 3) (seq 0 i) in
    total = Z.of_nat (binom 9 i) ∧
    (total * choices) `mod` (Z.of_nat i + 1) = 0 ∧
    fst (numpositions_loop (mkSize 2 3) (seq 0 (S i))) * (Z.of_nat i + 1) =
      total * choices.
Proof.
  apply (numpositions_binomial (mkSize 2 3) 3); simpl; lia.
Defined.

(** C1: on the 3x3 grid with 3 counters [solvegrid] returns exactly 5
    solutions, out of [numpositions = 84] raw arrangements. *)
Theorem solvegrid_2_3_3 :
  length <$> solvegrid (mkSize 2 3) 3 = Some 5%nat ∧
  numpositions (mkSize 2 3) 3 = 84.
Proof. split; vm_compute; reflexivity. Qed.

(** ** Pairs of a list, by position *)

Section combinations2.
Context {A : Type}.
Implicit Types l : list A.

Lemma elem_of_combinations2 l (p q : A) :
  (p, q) ∈ combinations2 l ↔
  ∃ i j, (i < j)%nat ∧ l !! i = Some p ∧ l !! j = Some q.
Proof.
  revert p q. induction l as [|x l IH]; intros p q; simpl.
  - split; [by intros ?%elem_of_nil|]. by intros (i & j & _ & ? & _).
  - rewrite elem_of_app, list_elem_of_fmap, IH. split.
    + intros [(y & [= -> ->] & (j & Hj)%list_elem_of_lookup)
             |(i & j & Hij & Hi & Hj)].
      * exists 0%nat, (S j). split; [lia|done].
      * exists (S i), (S j). split; [lia|done].
    + intros (i & j & Hij & Hi & Hj). destruct j as [|j]; [lia|].
      destruct i as [|i]; simplify_eq/=.
      * left. exists q. split; [done|]. by eapply list_elem_of_lookup_2.
      * right. exists i, j. split; [lia|done].
Qed.

Lemma length_combinations2 l :
  length (combinations2 l) = binom (length l) 2.
Proof.
  induction l as [|x l IH]; [done|].
  simpl combinations2. rewrite length_app, length_fmap, IH.
  change (binom (length (x :: l)) 2)
    with (binom (length l) 1 + binom (length l) 2)%nat.
  f_equal. generalize (length l). intros n.
  induction n as [|n IHn]; [done|].
  change (binom (S n) 1) with (binom n 0 + binom n 1)%nat.
  rewrite binom_0_r. lia.
Qed.

(** [combinations2] is [combinations(l, 2)] with the tuples unpacked. *)
Lemma combinations_2 l :
  combinations l 2 = (λ '(p, q), [p; q]) <$> combinations2 l.
Proof.
  induction l as [|x l IH]; [done|].
  simpl combinations2. rewrite fmap_app, <- IH, <- list_fmap_compose.
  change (combinations (x :: l) 2)
    with ((cons x <$> combinations l 1) ++ combinations l 2).
  f_equal. clear IH. induction l as [|y l IH]; [done|].
  change (combinations (y :: l) 1)
    with ((cons y <$> combinations l 0) ++ combinations l 1).
  rewrite fmap_app, IH. by destruct l.
Qed.

(** No value of [f] is taken at two different positions of the list of
    pairs exactly when no two different position pairs [i < j] and
    [k < m] of [l] give the same value. *)
Lemma NoDup_fmap_combinations2 {B} (f : A → A → B) l :
  NoDup (uncurry f <$> combinations2 l) ↔
  ∀ i j k m p q r s,
    (i < j)%nat → (k < m)%nat →
    l !! i = Some p → l !! j = Some q →
    l !! k = Some r → l !! m = Some s →
    f p q = f r s → i = k ∧ j = m.
Proof.
  induction l as [|x l IH]; simpl.
  - split; [|constructor]. by intros _ [|?] ? ? ? ? ? ? ? _ _ ?.
  - rewrite fmap_app, NoDup_app, IH, <- list_fmap_compose. split.
    + intros (Hx & Hxl & Hl) i j k m p q r s Hij Hkm Hi Hj Hk Hm Hf.
      destruct j as [|j]; [lia|]. destruct m as [|m]; [lia|].
      destruct i as [|i], k as [|k]; simplify_eq/=.
      * split; [done|]. f_equal.
        eapply (NoDup_lookup _ j m (f p q)); [exact Hx|..];
          rewrite list_lookup_fmap; [by rewrite Hj|by rewrite Hm, Hf].
      * exfalso. apply (Hxl (f p q)).
        -- apply list_elem_of_fmap. exists q. split; [done|].
           by eapply list_elem_of_lookup_2.
        -- apply list_elem_of_fmap. exists (r, s). split; [done|].
           apply elem_of_combinations2. exists k, m. split; [lia|done].
      * exfalso. apply (Hxl (f r s)).
        -- apply list_elem_of_fmap. exists s. split; [done|].
           by eapply list_elem_of_lookup_2.
        -- apply list_elem_of_fmap. exists (p, q). split; [done|].
           apply elem_of_combinations2. exists i, j. split; [lia|done].
      * destruct (Hl i j k m p q r s) as [-> ->]; auto with lia.
    + intros HP. split_and!.
      * apply NoDup_alt. intros j m v.
        rewrite !list_lookup_fmap.
        destruct (l !! j) as [q|] eqn:Hj; [|done].
        destruct (l !! m) as [s|] eqn:Hm; [|done].
        intros [= <-] [= Hf].
        destruct (HP 0%nat (S j) 0%nat (S m) x q x s) as [_ ?];
          simpl; auto with lia.
      * intros v (q & -> & (j & Hj)%list_elem_of_lookup)%list_elem_of_fmap
          ([r s] & Hf & (k & m & Hkm & Hk & Hm)%elem_of_combinations2)%list_elem_of_fmap.
        simpl in Hf.
        destruct (HP 0%nat (S j) (S k) (S m) x q r s) as [? _];
          simpl; auto with lia.
      * intros i j k m p q r s Hij Hkm Hi Hj Hk Hm Hf.
        destruct (HP (S i) (S j) (S k) (S m) p q r s) as [? ?];
          simpl; auto with lia.
Qed.
End combinations2.

(** ** The uniqueness filter *)

Lemma hasuniquedistance_loop_true (distances : gset Z) pairs :
  hasuniquedistance_loop distances pairs = true ↔
  NoDup (uncurry distance_squared <$> pairs) ∧
  ∀ d, d ∈ uncurry distance_squared <$> pairs → d ∉ distances.
Proof.
  revert distances. induction pairs as [|[p q] pairs IH]; intros D; simpl.
  - split; [|done]. intros _. split; [constructor|]. by intros d ?%elem_of_nil.
  - case_decide as Hd.
    + split; [done|]. intros [_ Hall]. exfalso. eapply Hall; [left|done].
    + rewrite IH, NoDup_cons. split.
      * intros [Hnd Hall]. split_and!; [|done|].
        -- intros Hin. apply (Hall _ Hin), elem_of_union_l.
           by apply elem_of_singleton.
        -- intros d [->|Hin]%elem_of_cons; [done|].
           intros HD. by apply (Hall _ Hin), elem_of_union_r.
      * intros [[Hnin Hnd] Hall]. split; [done|].
        intros d Hin [->%elem_of_singleton|HD]%elem_of_union; [done|].
        eapply Hall; [right|]; done.
Qed.

Lemma hasuniquedistance_NoDup (pieces : list point) :
  hasuniquedistance pieces = true ↔
  NoDup (uncurry distance_squared <$> combinations2 pieces).
Proof.
  unfold hasuniquedistance. rewrite hasuniquedistance_loop_true.
  split; [by intros [? _]|]. intros ?. split; [done|]. set_solver.
Qed.

(** The squared distances of the pairs form the same multiset in whatever
    order the points are listed, so the answer of the filter does not depend
    on that order. *)
Lemma distance_squared_sym (p q : point) :
  distance_squared p q = distance_squared q p.
Proof.
  revert q. induction p as [|x p IH]; intros [|y q]; try done.
  rewrite !distance_squared_cons, IH. f_equal. lia.
Qed.

Lemma combinations2_distances_Permutation (l l' : list point) :
  l ≡ₚ l' →
  uncurry distance_squared <$> combinations2 l
  ≡ₚ uncurry distance_squared <$> combinations2 l'.
Proof.
  induction 1 as [|x l l' Hl IH|x y l|l l' l'' _ IH1 _ IH2].
  - done.
  - simpl. rewrite !fmap_app, <- !list_fmap_compose, IH.
    apply Permutation_app; [|done]. by apply fmap_Permutation.
  - simpl. rewrite !fmap_app, <- !list_fmap_compose. simpl.
    rewrite (distance_squared_sym y x). constructor.
    rewrite !(assoc (++)). apply Permutation_app; [|done].
    apply Permutation_app_comm.
  - by etrans.
Qed.

Lemma hasuniquedistance_Permutation (l l' : list point) :
  l ≡ₚ l' → hasuniquedistance l = hasuniquedistance l'.
Proof.
  intros Hl. apply combinations2_distances_Permutation in Hl.
  destruct (hasuniquedistance l) eqn:H1, (hasuniquedistance l') eqn:H2;
    try done.
  - apply hasuniquedistance_NoDup in H1. rewrite Hl in H1.
    apply hasuniquedistance_NoDup in H1. congruence.
  - apply hasuniquedistance_NoDup in H2. rewrite <- Hl in H2.
    apply hasuniquedistance_NoDup in H2. congruence.
Qed.

(** C5, as the code has it: [hasuniquedistance] returns true exactly when
    no squared distance occurs twice among the unordered pairs of the
    placement, that is, when two position pairs [i < j] and [k < m] with
    equal squared distance are the same pair; there are [C(n,2)] such
    pairs, and the answer does not depend on the order in which the points
    are listed.  It is false on [{(0,0),(0,1),(1,0)}] (squared distances
    1, 1, 2) and also false on [{(0,2),(1,1),(2,2)}], whose squared
    distances are 2, 4, 2. *)
Theorem hasuniquedistance_spec :
  (∀ pieces : list point,
      length (combinations2 pieces) = binom (length pieces) 2 ∧
      (hasuniquedistance pieces = true ↔
       ∀ i j k m p q r s,
         (i < j)%nat → (k < m)%nat →
         pieces !! i = Some p → pieces !! j = Some q →
         pieces !! k = Some r → pieces !! m = Some s →
         distance_squared p q = distance_squared r s → i = k ∧ j = m)) ∧
  (∀ pieces pieces' : list point,
      pieces ≡ₚ pieces' →
      uncurry distance_squared <$> combinations2 pieces
        ≡ₚ uncurry distance_squared <$> combinations2 pieces' ∧
      hasuniquedistance pieces = hasuniquedistance pieces') ∧
  uncurry distance_squared <$> combinations2 [[0; 0]; [0; 1]; [1; 0]]
    = [1; 1; 2] ∧
  hasuniquedistance [[0; 0]; [0; 1]; [1; 0]] = false ∧
  uncurry distance_squared <$> combinations2 [[0; 2]; [1; 1]; [2; 2]]
    = [2; 4; 2] ∧
  hasuniquedistance [[0; 2]; [1; 1]; [2; 2]] = false.
Proof.
  split; [|split].
  - intros pieces. split; [apply length_combinations2|].
    rewrite hasuniquedistance_NoDup. apply NoDup_fmap_combinations2.
  - intros pieces pieces' Hp. split.
    + by apply combinations2_distances_Permutation.
    + by apply hasuniquedistance_Permutation.
  - split_and!; vm_compute; reflexivity.
Qed.

(** C5 as stated fails on its second example: the squared distances of
    [{(0,2),(1,1),(2,2)}] are 2, 4, 2 and not 2, 5, 1, so the value 2 is
    repeated and [hasuniquedistance] does not return true, in whichever
    order the three points are listed. *)
Lemma hasuniquedistance_example_fails :
  ¬ (uncurry distance_squared <$> combinations2 [[0; 2]; [1; 1]; [2; 2]]
       = [2; 5; 1] ∧
     hasuniquedistance [[0; 2]; [1; 1]; [2; 2]] = true) ∧
  hasuniquedistance <$> permutations [[0; 2]; [1; 1]; [2; 2]]
    = replicate 6 false.
Proof.
  split.
  - intros [Hd _]. vm_compute in Hd. discriminate Hd.
  - vm_compute. reflexivity.
Qed.

(** ** Combinations of a list *)

Section combinations.
Context {A : Type}.
Implicit Types l c s : list A.

Lemma combinations_cons x l r :
  combinations (x :: l) (S r) =
  (cons x <$> combinations l r) ++ combinations l (S r).
Proof. done. Qed.

Lemma combinations_0 l : combinations l 0 = [[]].
Proof. by destruct l. Qed.

(** The tuples produced are the sub-sequences of [l] of length [r]. *)
Lemma elem_of_combinations l r c :
  c ∈ combinations l r ↔ c `sublist_of` l ∧ length c = r.
Proof.
  revert r c. induction l as [|x l IH]; intros [|r] c.
  - simpl. rewrite list_elem_of_singleton, sublist_nil_r.
    split; [by intros ->|by intros [-> _]].
  - simpl. rewrite sublist_nil_r. split; [by intros ?%elem_of_nil|].
    by intros [-> ?].
  - rewrite combinations_0, list_elem_of_singleton. split.
    + intros ->. split; [apply sublist_nil_l|done].
    + intros [_ Hc]. by destruct c.
  - rewrite combinations_cons, elem_of_app, list_elem_of_fmap.
    rewrite sublist_cons_r, IH. split.
    + intros [(c' & -> & [Hs Hl]%IH)|[Hs Hl]].
      * split; [right; eauto|]. simpl. by rewrite Hl.
      * split; [by left|done].
    + intros [[Hs|(c' & -> & Hs)] Hl].
      * by right.
      * left. exists c'. split; [done|]. apply IH. split; [done|].
        simpl in Hl. lia.
Qed.

Lemma length_combinations l r :
  length (combinations l r) = binom (length l) r.
Proof.
  revert r. induction l as [|x l IH]; intros [|r]; try done.
  rewrite combinations_cons, length_app, length_fmap, !IH. done.
Qed.

Lemma NoDup_combinations l r : NoDup l → NoDup (combinations l r).
Proof.
  intros Hl. revert r. induction Hl as [|x l Hx Hl IH]; intros [|r].
  - apply NoDup_singleton.
  - constructor.
  - rewrite combinations_0. apply NoDup_singleton.
  - rewrite combinations_cons. apply NoDup_app. split_and!.
    + apply (NoDup_fmap_2 _), IH.
    + intros c (c' & -> & _)%list_elem_of_fmap [Hs _]%elem_of_combinations.
      apply Hx. eapply elem_of_sublist; [|exact Hs]. left.
    + apply IH.
Qed.

Context `{!EqDecision A}.

Lemma filter_ext_elem_of (P1 P2 : A → Prop)
    `{!∀ x, Decision (P1 x), !∀ x, Decision (P2 x)} l :
  (∀ x, x ∈ l → P1 x ↔ P2 x) → filter P1 l = filter P2 l.
Proof.
  induction l as [|x l IH]; intros HP; [done|].
  rewrite !filter_cons, IH by (intros y ?; apply HP; by right).
  destruct (decide (P1 x)) as [H1|H1], (decide (P2 x)) as [H2|H2];
    try done; exfalso; apply HP in H1 || apply HP in H2; done || left.
Qed.

(** A sub-sequence of a duplicate-free list is determined by the set of
    its elements. *)
Lemma filter_elem_of_sublist l c :
  NoDup l → c `sublist_of` l → filter (λ x, x ∈ c) l = c.
Proof.
  intros Hl Hs. induction Hs as [|x c l Hs IH|x c l Hs IH].
  - done.
  - apply NoDup_cons in Hl as [Hx Hl].
    rewrite filter_cons_True by left. f_equal.
    rewrite (filter_ext_elem_of _ (λ y, y ∈ c)); [by apply IH|].
    intros y Hy. rewrite elem_of_cons. split; [|by right].
    intros [->|?]; done.
  - apply NoDup_cons in Hl as [Hx Hl].
    rewrite filter_cons_False; [by apply IH|].
    intros Hxc. apply Hx. by eapply elem_of_sublist.
Qed.

(** Two tuples with the same points, in whatever order, are the same
    tuple: no placement is produced twice. *)
Lemma combinations_Permutation_eq l r c1 c2 :
  NoDup l → c1 ∈ combinations l r → c2 ∈ combinations l r →
  c1 ≡ₚ c2 → c1 = c2.
Proof.
  intros Hl [Hs1 _]%elem_of_combinations [Hs2 _]%elem_of_combinations Hp.
  rewrite <- (filter_elem_of_sublist l c1), <- (filter_elem_of_sublist l c2)
    by done.
  apply list_filter_iff. intros x. by rewrite Hp.
Qed.

(** Every duplicate-free selection of [r] elements of [l] is produced:
    no placement is skipped. *)
Lemma combinations_complete l s :
  NoDup s → (∀ x, x ∈ s → x ∈ l) →
  ∃ c, c ∈ combinations l (length s) ∧ c ≡ₚ s.
Proof.
  intros Hs Hsl. revert s Hs Hsl. induction l as [|x l IH]; intros s Hs Hsl.
  - destruct s as [|y s]; [exists []; split; [left|done]|].
    exfalso. eapply elem_of_nil, Hsl. left.
  - destruct (decide (x ∈ s)) as [Hx|Hx].
    + apply elem_of_Permutation in Hx as [s' Hp].
      rewrite Hp in Hs. apply NoDup_cons in Hs as [Hxs' Hs'].
      destruct (IH s' Hs') as (c & Hc & Hcs).
      { intros y Hy. assert (y ∈ s) as Hys by (rewrite Hp; by right).
        apply Hsl in Hys. apply elem_of_cons in Hys as [->|?]; done. }
      exists (x :: c). rewrite Hp. simpl length. split.
      * rewrite combinations_cons, elem_of_app. left.
        apply list_elem_of_fmap. eauto.
      * by rewrite Hcs.
    + destruct (IH s Hs) as (c & Hc & Hcs).
      { intros y Hy. pose proof (Hsl y Hy) as [->|?]%elem_of_cons; done. }
      exists c. split; [|done]. destruct s as [|y s].
      * rewrite combinations_0. apply Permutation_nil_r in Hcs as ->. left.
      * simpl length in *. rewrite combinations_cons, elem_of_app. by right.
Qed.
End combinations.

(** ** The points of the grid *)

Lemma elem_of_range (n x : Z) : x ∈ range n ↔ 0 ≤ x < n.
Proof.
  unfold range. rewrite list_elem_of_fmap. split.
  - intros (k & -> & Hk%elem_of_seq). lia.
  - intros Hx. exists (Z.to_nat x). split; [lia|]. apply elem_of_seq. lia.
Qed.

Lemma NoDup_range (n : Z) : NoDup (range n).
Proof. apply (NoDup_fmap_2 _), NoDup_seq. Qed.

Lemma length_range (n : Z) : length (range n) = Z.to_nat n.
Proof. unfold range. by rewrite length_fmap, length_seq. Qed.

Section product.
Context {A : Type}.
Implicit Types l : list A.

Lemma product_replicate_S d l :
  product (replicate (S d) l) =
  x ← l; cons x <$> product (replicate d l).
Proof. done. Qed.

Lemma elem_of_product_replicate d l (p : list A) :
  p ∈ product (replicate d l) ↔ length p = d ∧ Forall (λ x, x ∈ l) p.
Proof.
  revert p. induction d as [|d IH]; intros p.
  - simpl. rewrite list_elem_of_singleton. split; [by intros ->|].
    intros [Hp _]. by destruct p.
  - rewrite product_replicate_S, list_elem_of_bind. split.
    + intros (x & (p' & -> & [Hl Hp']%IH)%list_elem_of_fmap & Hx).
      split; [simpl; by rewrite Hl|by constructor].
    + intros [Hl Hp]. destruct p as [|x p']; [done|].
      apply Forall_cons in Hp as [Hx Hp']. exists x. split; [|done].
      apply list_elem_of_fmap. exists p'. split; [done|]. apply IH.
      split; [simpl in Hl; lia|done].
Qed.

Lemma length_product_replicate d l :
  length (product (replicate d l)) = (length l ^ d)%nat.
Proof.
  induction d as [|d IH]; [done|].
  rewrite product_replicate_S, Nat.pow_succ_r'.
  generalize (product (replicate d l)) IH. intros ps <-. clear IH.
  induction l as [|x l IH]; [done|].
  rewrite bind_cons, length_app, length_fmap, IH. simpl. lia.
Qed.

Lemma NoDup_product_replicate d l :
  NoDup l → NoDup (product (replicate d l)).
Proof.
  intros Hl. induction d as [|d IH]; [apply NoDup_singleton|].
  rewrite product_replicate_S. apply NoDup_bind; [|intros x _|done].
  - intros x1 x2 p _ _ (p1 & -> & _)%list_elem_of_fmap
      (p2 & [= -> _] & _)%list_elem_of_fmap. done.
  - by apply (NoDup_fmap_2 _).
Qed.
End product.

Lemma elem_of_generatepoints size p :
  p ∈ generatepoints size ↔ ingrid size p.
Proof.
  unfold generatepoints, ingrid.
  rewrite elem_of_product_replicate.
  apply and_iff_compat_l. apply Forall_proper; [|done].
  intros x. apply elem_of_range.
Qed.

Lemma NoDup_generatepoints size : NoDup (generatepoints size).
Proof. apply NoDup_product_replicate, NoDup_range. Qed.

Lemma length_generatepoints size :
  0 ≤ width size →
  Z.of_nat (length (generatepoints size)) =
  width size ^ Z.of_nat (dim size).
Proof.
  intros Hw. unfold generatepoints.
  rewrite length_product_replicate, length_range, Nat2Z.inj_pow. f_equal. lia.
Qed.

(** ** The candidate enumerator *)

Lemma numpositions_length_combinations size n :
  0 ≤ width size →
  numpositions size n =
  Z.of_nat (length (combinations (generatepoints size) n)).
Proof.
  intros Hw. unfold numpositions.
  rewrite (numpositions_loop_binom size (length (generatepoints size)))
    by (symmetry; by apply length_generatepoints).
  by rewrite length_combinations.
Qed.

Lemma list_to_set_eq_Permutation (a b : list point) :
  NoDup a → NoDup b →
  list_to_set (C:=gset point) a = list_to_set b → a ≡ₚ b.
Proof.
  intros Ha Hb Hab. apply NoDup_Permutation; [done..|]. intros p.
  by rewrite <- !(elem_of_list_to_set (C:=gset point)), Hab.
Qed.

(** C6: for a positive dimension and width and [n ≤ width^dimension],
    [generatearrangements] produces exactly [numpositions] placements; each
    consists of [n] distinct points of the grid; no two of them are the same
    set of points; and every set of [n] distinct grid points is produced. *)
Theorem generatearrangements_spec (size : Size) (n : nat) :
  (0 < dim size)%nat → 0 < width size →
  Z.of_nat n ≤ width size ^ Z.of_nat (dim size) →
  let arrangements := generatearrangements size n in
  Z.of_nat (length arrangements) = numpositions size n ∧
  numpositions size n =
    Z.of_nat (binom (Z.to_nat (width size ^ Z.of_nat (dim size))) n) ∧
  (∀ arr, arr ∈ arrangements →
     length arr = n ∧ NoDup arr ∧
     ∀ p, p ∈ arr → ingrid size p ∧ p ∈ generatepoints size) ∧
  NoDup ((list_to_set <$> arrangements) : list (gset point)) ∧
  (∀ s : list point,
     NoDup s → length s = n → (∀ p, p ∈ s → ingrid size p) →
     ∃ arr, arr ∈ arrangements ∧ arr ≡ₚ s).
Proof.
  intros Hd Hw Hn arrangements. subst arrangements.
  unfold generatearrangements.
  pose proof (NoDup_generatepoints size) as Hnd.
  assert (∀ arr, arr ∈ combinations (generatepoints size) n → NoDup arr)
    as Hnda.
  { intros arr [Hs _]%elem_of_combinations. by eapply sublist_NoDup. }
  split_and!.
  - symmetry. apply numpositions_length_combinations. lia.
  - rewrite numpositions_length_combinations, length_combinations by lia.
    do 2 f_equal. apply Nat2Z.inj. rewrite length_generatepoints; lia.
  - intros a Ha. pose proof Ha as [Hs Hl]%elem_of_combinations.
    split_and!; [done|by apply Hnda|]. intros p Hp.
    assert (p ∈ generatepoints size) by by eapply elem_of_sublist.
    split; [by apply elem_of_generatepoints|done].
  - apply NoDup_fmap_2_strong; [|by apply NoDup_combinations].
    intros a b Ha Hb Hab. eapply combinations_Permutation_eq; [done..|].
    apply list_to_set_eq_Permutation; auto.
  - intros s Hs <- Hg. apply combinations_complete; [done|].
    intros p Hp. by apply elem_of_generatepoints, Hg.
Qed.

Lemma generatearrangements_spec_witness :
  let arrangements := generatearrangements (mkSize 2 3) 3 in
  Z.of_nat (length arrangements) = 84 ∧
  84 = Z.of_nat (binom 9 3) ∧
  (∀ arr, arr ∈ arrangements →
     length arr = 3%nat ∧ NoDup arr ∧
     ∀ p, p ∈ arr → ingrid (mkSize 2 3) p ∧ p ∈ generatepoints (mkSize 2 3)) ∧
  NoDup ((list_to_set <$> arrangements) : list (gset point)) ∧
  (∀ s : list point,
     NoDup s → length s = 3%nat → (∀ p, p ∈ s → ingrid (mkSize 2 3) p) →
     ∃ arr, arr ∈ arrangements ∧ arr ≡ₚ s).
Proof.
  apply (generatearrangements_spec (mkSize 2 3) 3); simpl; lia.
Defined.

(** ** Rotating and reflecting one point *)

Lemma flipbit_shiftr flip k : flipbit (Z.shiftr flip 1) k = flipbit flip (S k).
Proof.
  unfold flipbit. rewrite Z.shiftr_shiftr by lia. do 2 f_equal. lia.
Qed.

Lemma flipbit_0 flip : flipbit flip 0 = Z.land flip 1.
Proof. unfold flipbit. by rewrite Z.shiftr_0_r. Qed.

Lemma bitgen_lookup flip n k :
  (k < n)%nat → bitgen flip n !! k = Some (flipbit flip k).
Proof.
  revert flip k. induction n as [|n IH]; intros flip [|k] Hk; try lia.
  - simpl. by rewrite flipbit_0.
  - simpl. rewrite IH by lia. by rewrite flipbit_shiftr.
Qed.

Lemma length_bitgen flip n : length (bitgen flip n) = n.
Proof. revert flip. induction n as [|n IH]; intros flip; simpl; by rewrite ?IH. Qed.

Lemma doflip_involutive size bit x : doflip size (doflip size x bit) bit = x.
Proof. unfold doflip. case_decide; lia. Qed.

Lemma doflip_ingrid size bit x :
  0 ≤ x < width size → 0 ≤ doflip size x bit < width size.
Proof. unfold doflip. case_decide; lia. Qed.

Lemma rotatepoint_nil size flip p : rotatepoint size flip [] p = Some [].
Proof. done. Qed.

Lemma rotatepoint_cons size flip i perm p :
  rotatepoint size flip (i :: perm) p =
  x ← p !! i;
  q ← rotatepoint size (Z.shiftr flip 1) perm p;
  Some (doflip size x (Z.land flip 1) :: q).
Proof. unfold rotatepoint. simpl. by destruct (p !! i). Qed.

(** The tuple built by [rotatepoint], position by position. *)
Lemma rotatepoint_Some size flip perm p q :
  rotatepoint size flip perm p = Some q ↔
  length q = length perm ∧
  ∀ k i, perm !! k = Some i →
    ∃ x, p !! i = Some x ∧ q !! k = Some (doflip size x (flipbit flip k)).
Proof.
  revert flip q. induction perm as [|i perm IH]; intros flip q.
  - rewrite rotatepoint_nil. split.
    + intros [= <-]. split; [done|]. by intros k i ?.
    + intros [Hl _]. by destruct q.
  - rewrite rotatepoint_cons. split.
    + intros (x & Hx & (q' & [Hl Hq']%IH & [= <-])%bind_Some)%bind_Some.
      split; [simpl; by rewrite Hl|]. intros [|k] j Hk; simplify_eq/=.
      * exists x. by rewrite flipbit_0.
      * destruct (Hq' k j Hk) as (y & ? & ?). exists y.
        by rewrite <- flipbit_shiftr.
    + intros [Hl Hq]. destruct q as [|y q']; [done|].
      destruct (Hq 0%nat i eq_refl) as (x & Hx & [= ->]).
      rewrite Hx. simpl. rewrite flipbit_0.
      assert (rotatepoint size (flip ≫ 1) perm p = Some q') as ->; [|done].
      apply IH. split; [simpl in Hl; lia|]. intros k j Hk.
      destruct (Hq (S k) j Hk) as (z & ? & ?). exists z.
      by rewrite flipbit_shiftr.
Qed.

(** [rotatepoint] raises only when the permutation names a position past
    the end of the point. *)
Lemma rotatepoint_is_Some size flip perm p :
  is_Some (rotatepoint size flip perm p) ↔
  ∀ i, i ∈ perm → (i < length p)%nat.
Proof.
  revert flip. induction perm as [|i perm IH]; intros flip.
  - rewrite rotatepoint_nil. split; [by intros _ i ?%elem_of_nil|by eauto].
  - rewrite rotatepoint_cons. split.
    + intros [q (x & Hx & (q' & Hq' & _)%bind_Some)%bind_Some] j
        [->|Hj]%elem_of_cons.
      * by eapply lookup_lt_Some.
      * eapply IH; [|done]. by eexists.
    + intros Hall. destruct (lookup_lt_is_Some_2 p i) as [x Hx].
      { apply Hall. left. }
      destruct (proj2 (IH (flip ≫ 1))) as [q' Hq'].
      { intros j Hj. apply Hall. by right. }
      rewrite Hx. simpl. rewrite Hq'. by eexists.
Qed.

(** ** Permutations of the axes *)

Section permutations.
Context {A : Type}.
Implicit Types l p : list A.

Lemma elem_of_permutations_rounds n l p :
  length l = n → p ∈ permutations_rounds n l ↔ p ≡ₚ l.
Proof.
  revert l p. induction n as [|n IH]; intros l p Hl.
  - destruct l; [|done]. simpl. rewrite list_elem_of_singleton.
    by rewrite Permutation_nil_r.
  - simpl. rewrite list_elem_of_bind. split.
    + intros (i & Hp & Hi%elem_of_seq).
      destruct (l !! i) as [x|] eqn:Hx; [|by apply elem_of_nil in Hp].
      apply list_elem_of_fmap in Hp as (p' & -> & Hp').
      apply IH in Hp'; [|rewrite length_delete; [lia|by eexists]].
      rewrite Hp'. symmetry. by apply delete_Permutation.
    + intros Hp. destruct p as [|x p'].
      { apply Permutation_length in Hp. simpl in Hp. lia. }
      assert (x ∈ l) as [i Hi]%list_elem_of_lookup by (rewrite <- Hp; left).
      exists i. split; [|apply elem_of_seq; apply lookup_lt_Some in Hi; lia].
      rewrite Hi. apply list_elem_of_fmap. exists p'. split; [done|].
      apply IH; [rewrite length_delete; [lia|by eexists]|].
      apply (Permutation_cons_inv (a:=x)). rewrite Hp.
      by apply delete_Permutation.
Qed.

(** [permutations] lists exactly the rearrangements of [l]. *)
Lemma elem_of_permutations l p : p ∈ permutations l ↔ p ≡ₚ l.
Proof. by apply elem_of_permutations_rounds. Qed.

(** The identity comes first. *)
Lemma permutations_head l : ∃ ps, permutations l = l :: ps.
Proof.
  unfold permutations. induction l as [|x l [ps IH]]; [by eexists|].
  simpl. rewrite IH. simpl. by eexists.
Qed.
End permutations.

(** ** Rotating and reflecting a placement *)

Lemma mapM_Some_elem_of {A B} (f : A → option B) l k y :
  mapM f l = Some k → y ∈ k ↔ ∃ x, x ∈ l ∧ f x = Some y.
Proof.
  intros Hl%mapM_Some. split.
  - intros [i Hi]%list_elem_of_lookup.
    destruct (Forall2_lookup_r _ _ _ i y Hl Hi) as (x & Hx & Hxy).
    exists x. split; [by eapply list_elem_of_lookup_2|done].
  - intros (x & [i Hi]%list_elem_of_lookup & Hxy).
    destruct (Forall2_lookup_l _ _ _ i x Hl Hi) as (y' & Hy' & Hxy').
    rewrite Hxy in Hxy'. simplify_eq. by eapply list_elem_of_lookup_2.
Qed.

Lemma rotatearragement_is_Some size flip perm (a : gset point) :
  is_Some (rotatearragement size flip perm a) ↔
  ∀ p, p ∈ a → is_Some (rotatepoint size flip perm p).
Proof.
  unfold rotatearragement. rewrite fmap_is_Some, mapM_is_Some, Forall_forall.
  split; intros Ha p Hp; apply Ha; by apply elem_of_elements.
Qed.

Lemma rotatearragement_Some size flip perm (a b : gset point) :
  rotatearragement size flip perm a = Some b ↔
  (∀ p, p ∈ a → is_Some (rotatepoint size flip perm p)) ∧
  ∀ q, q ∈ b ↔ ∃ p, p ∈ a ∧ rotatepoint size flip perm p = Some q.
Proof.
  split.
  - intros Hb. split; [apply rotatearragement_is_Some; by eexists|].
    unfold rotatearragement in Hb.
    apply fmap_Some in Hb as (l & Hl & ->). intros q.
    rewrite elem_of_list_to_set, (mapM_Some_elem_of _ _ _ _ Hl).
    by setoid_rewrite elem_of_elements.
  - intros [Hsome Hb].
    destruct (proj2 (rotatearragement_is_Some size flip perm a) Hsome)
      as [b' Hb'].
    rewrite Hb'. f_equal. pose proof Hb' as Hb''.
    unfold rotatearragement in Hb''.
    apply fmap_Some in Hb'' as (l & Hl & ->). apply set_eq. intros q.
    rewrite Hb, elem_of_list_to_set, (mapM_Some_elem_of _ _ _ _ Hl).
    by setoid_rewrite elem_of_elements.
Qed.

(** On points with [dim] coordinates no transform of the group raises. *)
Lemma rotatepoint_is_Some_perm size flip perm p :
  perm ≡ₚ seq 0 (dim size) → length p = dim size →
  is_Some (rotatepoint size flip perm p).
Proof.
  intros Hperm Hp. apply rotatepoint_is_Some. intros i Hi.
  rewrite Hperm in Hi. apply elem_of_seq in Hi. lia.
Qed.

Lemma rotatearragement_is_Some_perm size flip perm (a : gset point) :
  perm ≡ₚ seq 0 (dim size) → (∀ p, p ∈ a → length p = dim size) →
  is_Some (rotatearragement size flip perm a).
Proof.
  intros Hperm Ha. apply rotatearragement_is_Some. intros p Hp.
  apply rotatepoint_is_Some_perm; auto.
Qed.

(** ** Loops with an early return *)

Lemma for_return_inv {A R} (body : A → option (option R)) l :
  match for_return body l with
  | Some (Some v) => ∃ x, x ∈ l ∧ body x = Some (Some v)
  | Some None => ∀ x, x ∈ l → body x = Some None
  | None => ∃ x, x ∈ l ∧ body x = None
  end.
Proof.
  induction l as [|x l IH]; simpl.
  - by intros x ?%elem_of_nil.
  - destruct (body x) as [[v|]|] eqn:Hx; simpl.
    + exists x. split; [left|done].
    + destruct (for_return body l) as [[v|]|].
      * destruct IH as (y & ? & ?). exists y. split; [by right|done].
      * intros y [->|?]%elem_of_cons; auto.
      * destruct IH as (y & ? & ?). exists y. split; [by right|done].
    + exists x. split; [left|done].
Qed.

(** The first round that returns decides the loop. *)
Lemma for_return_first {A R} (body : A → option (option R)) l1 x l2 v :
  (∀ y, y ∈ l1 → body y = Some None) → body x = Some (Some v) →
  for_return body (l1 ++ x :: l2) = Some (Some v).
Proof.
  intros Hl1 Hx. induction l1 as [|y l1 IH]; simpl.
  - by rewrite Hx.
  - rewrite (Hl1 y) by left. simpl. apply IH. intros z ?. apply Hl1. by right.
Qed.

(** ** The symmetry test *)

Lemma istransformof_cases size (a b : gset point) :
  (∀ p, p ∈ a → length p = dim size) →
  (istransformof size a b = Some (PyBool true) ∧ transform_of size a b) ∨
  (istransformof size a b = Some PyNone ∧ ¬ transform_of size a b).
Proof.
  intros Ha. unfold istransformof.
  match goal with
  | |- context [for_return ?f (range _)] => set (outer := f)
  end.
  assert (∀ flip, flip ∈ range (2 ^ Z.of_nat (dim size)) →
    (outer flip = Some (Some (PyBool true)) ∧ transform_of size a b) ∨
    (outer flip = Some None ∧
     ∀ perm, perm ≡ₚ seq 0 (dim size) →
       rotatearragement size flip perm a ≠ Some b)) as Houter.
  { intros flip Hflip%elem_of_range. subst outer. simpl.
    match goal with
    | |- context [for_return ?f ?l] =>
        pose proof (for_return_inv f l) as Hinv;
        destruct (for_return f l) as [[v|]|]
    end.
    - destruct Hinv as (perm & Hperm%elem_of_permutations & Hbody).
      apply bind_Some in Hbody as (a' & Ha' & Hv). case_decide; [|done].
      simplify_eq. left. split; [done|]. by exists flip, perm.
    - right. split; [done|]. intros perm Hperm%elem_of_permutations Hrot.
      specialize (Hinv perm Hperm). rewrite Hrot in Hinv. simpl in Hinv.
      by rewrite decide_True in Hinv.
    - exfalso. destruct Hinv as (perm & Hperm%elem_of_permutations & Hbody).
      destruct (rotatearragement_is_Some_perm size flip perm a Hperm Ha)
        as [a' Ha'].
      by rewrite Ha' in Hbody. }
  pose proof (for_return_inv outer (range (2 ^ Z.of_nat (dim size)))) as Hinv.
  destruct (for_return outer (range (2 ^ Z.of_nat (dim size)))) as [[v|]|];
    simpl.
  - destruct Hinv as (flip & Hflip & Hv).
    destruct (Houter flip Hflip) as [[Ho ?]|[Ho _]]; rewrite Ho in Hv;
      [|done].
    left. by simplify_eq.
  - right. split; [done|]. intros (flip & perm & Hflip & Hperm & Hrot).
    apply elem_of_range in Hflip.
    destruct (Houter flip Hflip) as [[Ho _]|[_ Hno]].
    + by rewrite (Hinv flip Hflip) in Ho.
    + by apply (Hno perm).
  - exfalso. destruct Hinv as (flip & Hflip & Hv).
    destruct (Houter flip Hflip) as [[Ho _]|[Ho _]]; by rewrite Ho in Hv.
Qed.

(** [istransformof] returns [True] exactly when a transform of the group
    maps [a] onto [b]; otherwise it runs off the end of its body. *)
Lemma istransformof_true size (a b : gset point) :
  (∀ p, p ∈ a → length p = dim size) →
  istransformof size a b = Some (PyBool true) ↔ transform_of size a b.
Proof.
  intros Ha. destruct (istransformof_cases size a b Ha) as [[-> ?]|[-> ?]];
    split; done.
Qed.

Lemma istransformof_no_match size (a b : gset point) :
  (∀ p, p ∈ a → length p = dim size) →
  ¬ transform_of size a b → istransformof size a b = Some PyNone.
Proof.
  intros Ha Hno. by destruct (istransformof_cases size a b Ha) as [[_ ?]|[-> _]].
Qed.

(** The identity transform: no reflection, axes in their own order. *)
Lemma flipbit_zero k : flipbit 0 k = 0.
Proof. unfold flipbit. by rewrite Z.shiftr_0_l. Qed.

Lemma rotatepoint_identity size (p : point) :
  length p = dim size → rotatepoint size 0 (seq 0 (dim size)) p = Some p.
Proof.
  intros Hp. apply rotatepoint_Some. rewrite length_seq. split; [done|].
  intros k i [-> Hk]%lookup_seq. simpl.
  destruct (lookup_lt_is_Some_2 p k) as [x Hx]; [lia|].
  exists x. by rewrite flipbit_zero.
Qed.

Lemma rotatearragement_identity size a :
  (∀ p, p ∈ a → length p = dim size) →
  rotatearragement size 0 (seq 0 (dim size)) a = Some a.
Proof.
  intros Ha. apply rotatearragement_Some. split.
  - intros p Hp. rewrite rotatepoint_identity by auto. by eexists.
  - intros q. split.
    + intros Hq. exists q. split; [done|]. apply rotatepoint_identity; auto.
    + intros (p & Hp & Hq). rewrite rotatepoint_identity in Hq by auto.
      by simplify_eq.
Qed.

Lemma transform_of_refl size a :
  (∀ p, p ∈ a → length p = dim size) → transform_of size a a.
Proof.
  intros Ha. exists 0, (seq 0 (dim size)). split_and!; [lia| |done|].
  - apply Z.pow_pos_nonneg; lia.
  - by apply rotatearragement_identity.
Qed.

Lemma gridplacement_length size a p :
  gridplacement size a → p ∈ a → length p = dim size.
Proof. intros Ha Hp. by destruct (Ha p Hp). Qed.

(** C9: for every placement [a] of grid points, [istransformof(size, a, a)]
    is true: the identity transform belongs to the enumerated group. *)
Theorem istransformof_refl size a :
  gridplacement size a →
  istransformof size a a = Some (PyBool true) ∧
  0 ∈ range (2 ^ Z.of_nat (dim size)) ∧
  seq 0 (dim size) ∈ permutations (seq 0 (dim size)) ∧
  rotatearragement size 0 (seq 0 (dim size)) a = Some a.
Proof.
  intros Ha.
  assert (∀ p, p ∈ a → length p = dim size) as Hl
    by (intros p; by apply gridplacement_length).
  split_and!.
  - apply istransformof_true; [done|]. by apply transform_of_refl.
  - apply elem_of_range. split; [lia|]. apply Z.pow_pos_nonneg; lia.
  - by apply elem_of_permutations.
  - by apply rotatearragement_identity.
Qed.

Lemma istransformof_refl_witness :
  let size := mkSize 2 3 in
  let a : gset point := {[ [0; 0]; [1; 2] ]} in
  istransformof size a a = Some (PyBool true) ∧
  0 ∈ range (2 ^ Z.of_nat (dim size)) ∧
  seq 0 (dim size) ∈ permutations (seq 0 (dim size)) ∧
  rotatearragement size 0 (seq 0 (dim size)) a = Some a.
Proof.
  apply (istransformof_refl (mkSize 2 3) {[ [0; 0]; [1; 2] ]}).
  intros p [->%elem_of_singleton| ->%elem_of_singleton]%elem_of_union;
    (split; [reflexivity|repeat constructor; simpl; lia]).
Defined.

(** ** The solution set *)

Lemma containstransform_cases size solutions a :
  (∀ p, p ∈ a → length p = dim size) →
  (containstransform size solutions a = Some true ∧
   ∃ b, b ∈ solutions ∧ transform_of size a b) ∨
  (containstransform size solutions a = Some false ∧
   ∀ b, b ∈ solutions → ¬ transform_of size a b).
Proof.
  intros Ha. unfold containstransform.
  match goal with
  | |- context [for_return ?f solutions] =>
      pose proof (for_return_inv f solutions) as Hinv;
      destruct (for_return f solutions) as [[v|]|]; simpl
  end.
  - left. destruct Hinv as (b & Hb & Hbody).
    destruct (istransformof_cases size a b Ha) as [[Ht ?]|[Ht ?]];
      rewrite Ht in Hbody; simplify_eq/=. eauto.
  - right. split; [done|]. intros b Hb Htr. specialize (Hinv b Hb).
    apply istransformof_true in Htr; [|done]. by rewrite Htr in Hinv.
  - exfalso. destruct Hinv as (b & Hb & Hbody).
    by destruct (istransformof_cases size a b Ha) as [[Ht ?]|[Ht ?]];
      rewrite Ht in Hbody.
Qed.

Lemma solutions_inv_nil size : solutions_inv size [].
Proof. split; [by intros i j ? ? _ ?|by intros s ?%elem_of_nil]. Qed.

Lemma solutions_inv_snoc size solutions a :
  solutions_inv size solutions →
  hasuniquedistance (elements a) = true →
  (∀ b, b ∈ solutions → ¬ transform_of size a b) →
  solutions_inv size (solutions ++ [a]).
Proof.
  intros [Hd Hu] Ha Hnew. split.
  - intros i j si sj Hij Hi Hj.
    destruct (decide (j < length solutions)%nat) as [Hlt|Hge].
    + rewrite lookup_app_l in Hi, Hj by lia. by apply (Hd i j).
    + rewrite lookup_app_r in Hj by lia.
      apply list_lookup_singleton_Some in Hj as [Hj <-].
      rewrite lookup_app_l in Hi by lia.
      apply Hnew. by eapply list_elem_of_lookup_2.
  - intros s [?| ->%list_elem_of_singleton]%elem_of_app; auto.
Qed.

(** One round of the loop never raises on a candidate whose points have
    [dim] coordinates, keeps the invariant, and either leaves [solutions]
    alone or appends the candidate. *)
Lemma solvegrid_step_inv size solutions (pieces : list point) :
  Forall (λ p, length p = dim size) pieces →
  solutions_inv size solutions →
  ∃ solutions',
    solvegrid_step size solutions pieces = Some solutions' ∧
    solutions_inv size solutions' ∧
    (solutions' = solutions ∨ solutions' = solutions ++ [list_to_set pieces]).
Proof.
  intros Hp Hinv. unfold solvegrid_step.
  destruct (hasuniquedistance _) eqn:Hu; [|by eauto].
  assert (∀ p, p ∈ (list_to_set pieces : gset point) → length p = dim size)
    as Hl.
  { intros p Hin%elem_of_list_to_set. by eapply Forall_forall in Hp. }
  destruct (containstransform_cases size solutions _ Hl)
    as [[-> _]|[-> Hnew]]; simpl; [by eauto|].
  eexists. split; [done|]. split; [|by right].
  by apply solutions_inv_snoc.
Qed.

Lemma solvegrid_loop_app size solutions (l1 l2 : list (list point)) :
  solvegrid_loop size solutions (l1 ++ l2) =
  solutions' ← solvegrid_loop size solutions l1;
  solvegrid_loop size solutions' l2.
Proof.
  revert solutions. induction l1 as [|c l1 IH]; intros solutions; [done|].
  simpl. destruct (solvegrid_step size solutions c); simpl; [apply IH|done].
Qed.

Lemma solvegrid_loop_inv size solutions (cands : list (list point)) :
  Forall (Forall (λ p, length p = dim size)) cands →
  solutions_inv size solutions →
  ∃ solutions',
    solvegrid_loop size solutions cands = Some solutions' ∧
    solutions_inv size solutions'.
Proof.
  intros Hc. revert solutions.
  induction Hc as [|c cands Hc _ IH]; intros solutions Hinv; [by eauto|].
  destruct (solvegrid_step_inv size solutions c Hc Hinv)
    as (solutions' & Hstep & Hinv' & _).
  simpl. rewrite Hstep. simpl. by apply IH.
Qed.

Lemma generatearrangements_lengths size n :
  Forall (Forall (λ p, length p = dim size)) (generatearrangements size n).
Proof.
  apply Forall_forall. intros c [Hs _]%elem_of_combinations.
  apply Forall_forall. intros p Hp.
  assert (p ∈ generatepoints size) as Hg by by eapply elem_of_sublist.
  by apply elem_of_generatepoints in Hg as [? _].
Qed.

(** C2: [solvegrid] returns a list, and after every round of its loop, hence
    after every append and in the final result, no later entry of
    [solutions] is mapped onto an earlier one by any [(flip, perm)] of the
    group, and every entry satisfies [hasuniquedistance].  This holds for
    every dimension, width and number of counters. *)
Theorem solvegrid_invariant size (n : nat) :
  (∀ k, ∃ solutions,
     solvegrid_loop size [] (take k (generatearrangements size n))
       = Some solutions ∧
     (∀ i j si sj,
        (i < j)%nat → solutions !! i = Some si → solutions !! j = Some sj →
        ¬ ∃ flip perm,
            0 ≤ flip < 2 ^ Z.of_nat (dim size) ∧
            perm ≡ₚ seq 0 (dim size) ∧
            rotatearragement size flip perm sj = Some si) ∧
     (∀ s, s ∈ solutions → hasuniquedistance (elements s) = true)) ∧
  (∃ solutions,
     solvegrid size n = Some solutions ∧
     solvegrid_loop size []
       (take (length (generatearrangements size n))
          (generatearrangements size n)) = Some solutions) ∧
  (∀ solutions pieces,
     Forall (λ p, length p = dim size) pieces →
     solvegrid_step size solutions pieces = Some solutions ∨
     solvegrid_step size solutions pieces
       = Some (solutions ++ [list_to_set pieces])).
Proof.
  pose proof (generatearrangements_lengths size n) as Hl. split_and!.
  - intros k.
    destruct (solvegrid_loop_inv size [] (take k (generatearrangements size n)))
      as (solutions & Hrun & Hinv); [by apply Forall_take|
                                     apply solutions_inv_nil|].
    exists solutions. split; [done|]. exact Hinv.
  - destruct (solvegrid_loop_inv size [] (generatearrangements size n))
      as (solutions & Hrun & _); [done|apply solutions_inv_nil|].
    exists solutions. by rewrite firstn_all.
  - intros solutions pieces Hp. unfold solvegrid_step.
    destruct (hasuniquedistance _); [|by left].
    assert (∀ p, p ∈ (list_to_set pieces : gset point) → length p = dim size)
      as Hlp.
    { intros p Hin%elem_of_list_to_set. by eapply Forall_forall in Hp. }
    destruct (containstransform_cases size solutions _ Hlp)
      as [[-> _]|[-> _]]; simpl; [by left|by right].
Qed.

(** ** Inverse transforms *)

Lemma land_1 (x : Z) : Z.land x 1 = x `mod` 2.
Proof. change 1 with (Z.ones 1) at 1. by rewrite Z.land_ones. Qed.

Lemma flipbit_01 flip k : flipbit flip k = 0 ∨ flipbit flip k = 1.
Proof.
  unfold flipbit. rewrite land_1.
  pose proof (Z.mod_pos_bound (flip ≫ Z.of_nat k) 2). lia.
Qed.

Lemma bits_to_Z_cons bit bits :
  bits_to_Z (bit :: bits) = bit + 2 * bits_to_Z bits.
Proof. done. Qed.

Lemma bitgen_S num n :
  bitgen num (S n) = Z.land num 1 :: bitgen (Z.shiftr num 1) n.
Proof. done. Qed.

Lemma bitgen_bits_to_Z bits :
  Forall (λ bit, bit = 0 ∨ bit = 1) bits →
  bitgen (bits_to_Z bits) (length bits) = bits.
Proof.
  induction 1 as [|bit bits Hb _ IH]; [done|].
  rewrite bits_to_Z_cons. generalize (bits_to_Z bits) IH. intros acc IHacc.
  change (length (bit :: bits)) with (S (length bits)).
  rewrite bitgen_S, land_1, Z.shiftr_div_pow2 by lia. change (2 ^ 1) with 2.
  f_equal.
  - Z.div_mod_to_equations. lia.
  - rewrite <- IHacc at 2. f_equal. Z.div_mod_to_equations. lia.
Qed.

Lemma bits_to_Z_bound bits :
  Forall (λ bit, bit = 0 ∨ bit = 1) bits →
  0 ≤ bits_to_Z bits < 2 ^ Z.of_nat (length bits).
Proof.
  induction 1 as [|bit bits Hb _ IH]; [done|].
  rewrite bits_to_Z_cons. simpl length.
  rewrite Nat2Z.inj_succ, Z.pow_succ_r by lia. lia.
Qed.

Lemma flipbit_bits_to_Z bits j bit :
  Forall (λ bit, bit = 0 ∨ bit = 1) bits →
  bits !! j = Some bit → flipbit (bits_to_Z bits) j = bit.
Proof.
  intros Hbits Hj. pose proof (lookup_lt_Some _ _ _ Hj) as Hlt.
  pose proof (bitgen_lookup (bits_to_Z bits) (length bits) j Hlt) as Hg.
  rewrite bitgen_bits_to_Z in Hg by done. congruence.
Qed.

Section invperm.
Variable d : nat.
Variable perm : list nat.
Hypothesis Hperm : perm ≡ₚ seq 0 d.

Lemma perm_length : length perm = d.
Proof. by rewrite Hperm, length_seq. Qed.

Lemma perm_NoDup : NoDup perm.
Proof. rewrite Hperm. apply NoDup_seq. Qed.

Lemma perm_lookup_lt k j : perm !! k = Some j → (j < d)%nat.
Proof.
  intros Hk%list_elem_of_lookup_2. rewrite Hperm in Hk.
  apply elem_of_seq in Hk. lia.
Qed.

Lemma length_invperm : length (invperm perm) = d.
Proof. unfold invperm. by rewrite length_fmap, length_seq, perm_length. Qed.

Lemma invperm_lookup j :
  (j < d)%nat → ∃ k, invperm perm !! j = Some k ∧ perm !! k = Some j.
Proof.
  intros Hj. unfold invperm.
  rewrite list_lookup_fmap, lookup_seq_lt by (by rewrite perm_length).
  assert (j ∈ perm) as Hin by (rewrite Hperm; apply elem_of_seq; lia).
  destruct (list_find_elem_of (λ i, i = j) perm j Hin eq_refl) as [[k i] Hf].
  simpl. rewrite Hf. apply list_find_Some in Hf as (Hk & -> & _). by exists k.
Qed.

Lemma invperm_lookup_inv j k :
  invperm perm !! j = Some k → perm !! k = Some j.
Proof.
  intros Hj. pose proof (lookup_lt_Some _ _ _ Hj) as Hlt.
  rewrite length_invperm in Hlt.
  destruct (invperm_lookup j Hlt) as (k' & Hk' & ?). congruence.
Qed.

Lemma invperm_Permutation : invperm perm ≡ₚ seq 0 d.
Proof.
  apply submseteq_length_Permutation.
  - apply NoDup_submseteq.
    + apply NoDup_alt.
      intros j1 j2 k H1%invperm_lookup_inv H2%invperm_lookup_inv. congruence.
    + intros k [j Hj%invperm_lookup_inv]%list_elem_of_lookup.
      apply elem_of_seq. apply lookup_lt_Some in Hj.
      rewrite perm_length in Hj. lia.
  - by rewrite length_invperm, length_seq.
Qed.

Lemma invflip_bits flip :
  Forall (λ bit, bit = 0 ∨ bit = 1) (flipbit flip <$> invperm perm).
Proof. apply Forall_fmap, Forall_forall. intros k _. apply flipbit_01. Qed.

Lemma invflip_bound flip : 0 ≤ invflip flip perm < 2 ^ Z.of_nat d.
Proof.
  pose proof (bits_to_Z_bound _ (invflip_bits flip)) as Hb.
  by rewrite length_fmap, length_invperm in Hb.
Qed.

Lemma inverse_transform_invperm flip :
  inverse_transform d flip perm (invflip flip perm) (invperm perm).
Proof.
  split; [apply length_invperm|]. intros j Hj.
  destruct (invperm_lookup j Hj) as (k & Hk & Hkj).
  exists k. split_and!; [done..|].
  apply flipbit_bits_to_Z; [apply invflip_bits|].
  by rewrite list_lookup_fmap, Hk.
Qed.

Lemma inverse_transform_sym flip flip' perm' :
  inverse_transform d flip perm flip' perm' →
  inverse_transform d flip' perm' flip perm.
Proof.
  intros [Hl Hinv]. split; [apply perm_length|]. intros k Hk.
  destruct (lookup_lt_is_Some_2 perm k) as [j Hj]; [by rewrite perm_length|].
  destruct (Hinv j (perm_lookup_lt k j Hj)) as (k' & Hk' & Hj' & Hbit).
  assert (k' = k) as -> by (eapply NoDup_lookup; eauto using perm_NoDup).
  by exists j.
Qed.
End invperm.

(** ** Round trips *)

(** A point sent through a transform and then through an inverse of it
    comes back unchanged. *)
Lemma rotatepoint_inverse size flip perm flip' perm' (p q : point) :
  inverse_transform (dim size) flip perm flip' perm' →
  length p = dim size →
  rotatepoint size flip perm p = Some q →
  rotatepoint size flip' perm' q = Some p.
Proof.
  intros [Hl Hinv] Hp [_ Hq]%rotatepoint_Some. apply rotatepoint_Some.
  split; [congruence|]. intros j k Hj.
  assert (j < dim size)%nat as Hlt
    by (apply lookup_lt_Some in Hj; by rewrite Hl in Hj).
  destruct (Hinv j Hlt) as (k' & Hk' & Hkj & Hbit). simplify_eq.
  destruct (Hq k j Hkj) as (x & Hx & Hqk).
  eexists. split; [done|]. by rewrite Hx, Hbit, doflip_involutive.
Qed.

Lemma rotatepoint_length size flip perm (p q : point) :
  rotatepoint size flip perm p = Some q → length q = length perm.
Proof. by intros [? _]%rotatepoint_Some. Qed.

(** A transform of the group sends grid points to grid points. *)
Lemma rotatepoint_ingrid size flip perm (p q : point) :
  perm ≡ₚ seq 0 (dim size) → ingrid size p →
  rotatepoint size flip perm p = Some q → ingrid size q.
Proof.
  intros Hperm [Hp Hin] [Hl Hq]%rotatepoint_Some. split.
  - by rewrite Hl, Hperm, length_seq.
  - apply Forall_lookup. intros k y Hk.
    destruct (lookup_lt_is_Some_2 perm k) as [i Hi].
    { rewrite <- Hl. by eapply lookup_lt_Some. }
    destruct (Hq k i Hi) as (x & Hx & Hy). simplify_eq.
    apply doflip_ingrid. exact (Forall_lookup_1 _ _ _ _ Hin Hx).
Qed.

Lemma rotatearragement_inverse size flip perm flip' perm' a b :
  inverse_transform (dim size) flip perm flip' perm' →
  (∀ p, p ∈ a → length p = dim size) →
  rotatearragement size flip perm a = Some b →
  rotatearragement size flip' perm' b = Some a.
Proof.
  intros Hinv Ha [Hsome Hb]%rotatearragement_Some.
  apply rotatearragement_Some. split.
  - intros q (p & Hp & Hq)%Hb.
    rewrite (rotatepoint_inverse _ _ _ _ _ p q Hinv) by auto. by eexists.
  - intros p. split.
    + intros Hp. destruct (Hsome p Hp) as [q Hq]. exists q. split.
      * apply Hb. eauto.
      * apply (rotatepoint_inverse _ _ _ _ _ p q Hinv); auto.
    + intros (q & (p' & Hp' & Hq')%Hb & Hq).
      rewrite (rotatepoint_inverse _ _ _ _ _ p' q Hinv) in Hq by auto.
      by simplify_eq.
Qed.

(** C7: every transform [(flip, perm)] of the group has an inverse
    [(flip', perm')] in the group: rotating any placement of grid points by
    the first and then by the second gives the placement back.  Each
    reflection is an involution, and [perm'] is the inverse permutation of
    [perm]. *)
Theorem rotatearragement_roundtrip size flip perm :
  0 ≤ flip < 2 ^ Z.of_nat (dim size) →
  perm ≡ₚ seq 0 (dim size) →
  ∃ flip' perm',
    0 ≤ flip' < 2 ^ Z.of_nat (dim size) ∧
    perm' ≡ₚ seq 0 (dim size) ∧
    (∀ j, (j < dim size)%nat →
       ∃ k, perm' !! j = Some k ∧ perm !! k = Some j ∧
            flipbit flip' j = flipbit flip k) ∧
    (∀ x bit, doflip size (doflip size x bit) bit = x) ∧
    ∀ a, gridplacement size a →
      ∃ b, rotatearragement size flip perm a = Some b ∧
           rotatearragement size flip' perm' b = Some a.
Proof.
  intros Hflip Hperm.
  pose proof (inverse_transform_invperm _ _ Hperm flip) as Hinv.
  exists (invflip flip perm), (invperm perm).
  split; [by apply invflip_bound|].
  split; [by apply invperm_Permutation|].
  split; [apply Hinv|].
  split; [intros x bit; apply doflip_involutive|].
  intros a Ha.
  assert (∀ p, p ∈ a → length p = dim size) as Hl
    by (intros p; by apply gridplacement_length).
  destruct (rotatearragement_is_Some_perm size flip perm a Hperm Hl)
    as [b Hb].
  exists b. split; [done|]. by eapply rotatearragement_inverse.
Qed.

Lemma rotatearragement_roundtrip_witness :
  let size := mkSize 2 3 in
  ∃ flip' perm',
    0 ≤ flip' < 2 ^ Z.of_nat (dim size) ∧
    perm' ≡ₚ seq 0 (dim size) ∧
    (∀ j, (j < dim size)%nat →
       ∃ k, perm' !! j = Some k ∧ [1; 0]%nat !! k = Some j ∧
            flipbit flip' j = flipbit 1 k) ∧
    (∀ x bit, doflip size (doflip size x bit) bit = x) ∧
    ∀ a, gridplacement size a →
      ∃ b, rotatearragement size 1 [1; 0]%nat a = Some b ∧
           rotatearragement size flip' perm' b = Some a.
Proof.
  apply (rotatearragement_roundtrip (mkSize 2 3) 1 [1; 0]%nat).
  - simpl. lia.
  - simpl. apply perm_swap.
Defined.

(** C8: a transform of the group sends a placement of grid points to a
    placement of grid points with the same number of points; on the points
    of the grid it is one-to-one and onto. *)
Theorem rotatearragement_bijection size flip perm a :
  gridplacement size a →
  0 ≤ flip < 2 ^ Z.of_nat (dim size) →
  perm ≡ₚ seq 0 (dim size) →
  (∃ b, rotatearragement size flip perm a = Some b ∧
        length (elements b) = length (elements a) ∧
        gridplacement size b) ∧
  (∀ p, ingrid size p →
     ∃ q, rotatepoint size flip perm p = Some q ∧ ingrid size q) ∧
  (∀ p1 p2 q, ingrid size p1 → ingrid size p2 →
     rotatepoint size flip perm p1 = Some q →
     rotatepoint size flip perm p2 = Some q → p1 = p2) ∧
  (∀ q, ingrid size q →
     ∃ p, ingrid size p ∧ rotatepoint size flip perm p = Some q).
Proof.
  intros Ha Hflip Hperm.
  pose proof (inverse_transform_invperm _ _ Hperm flip) as Hinv.
  pose proof (invperm_Permutation _ _ Hperm) as Hperm'.
  assert (∀ p1 p2 q, length p1 = dim size → length p2 = dim size →
    rotatepoint size flip perm p1 = Some q →
    rotatepoint size flip perm p2 = Some q → p1 = p2) as Hinj.
  { intros p1 p2 q Hp1 Hp2 H1 H2.
    apply (rotatepoint_inverse _ _ _ _ _ _ _ Hinv Hp1) in H1.
    apply (rotatepoint_inverse _ _ _ _ _ _ _ Hinv Hp2) in H2. congruence. }
  split_and!.
  - assert (∀ p, p ∈ a → length p = dim size) as Hl
      by (intros p; by apply gridplacement_length).
    destruct (rotatearragement_is_Some_perm size flip perm a Hperm Hl)
      as [b Hb].
    exists b. split; [done|]. split.
    + unfold rotatearragement in Hb.
      apply fmap_Some in Hb as (l & Hmap & ->).
      rewrite elements_list_to_set, <- (length_mapM _ _ _ Hmap); [done|].
      apply NoDup_alt. intros i j q Hi Hj. apply mapM_Some in Hmap.
      destruct (Forall2_lookup_r _ _ _ i q Hmap Hi) as (p1 & Hp1 & Hq1).
      destruct (Forall2_lookup_r _ _ _ j q Hmap Hj) as (p2 & Hp2 & Hq2).
      assert (p1 = p2) as <-.
      { apply (Hinj p1 p2 q); [apply Hl, elem_of_elements|
                                apply Hl, elem_of_elements|done..];
          by eapply list_elem_of_lookup_2. }
      eapply NoDup_lookup; [apply (NoDup_elements a)|done..].
    + apply rotatearragement_Some in Hb as [_ Hb].
      intros q (p & Hp & Hq)%Hb.
      apply (rotatepoint_ingrid size flip perm p q); auto.
  - intros p Hp.
    destruct (rotatepoint_is_Some_perm size flip perm p Hperm) as [q Hq];
      [by destruct Hp|].
    exists q. split; [done|].
    by apply (rotatepoint_ingrid size flip perm p q).
  - intros p1 p2 q [Hp1 _] [Hp2 _]. by apply Hinj.
  - intros q Hq.
    destruct (rotatepoint_is_Some_perm size (invflip flip perm) (invperm perm)
                q Hperm') as [p Hp]; [by destruct Hq|].
    exists p. split.
    { by apply (rotatepoint_ingrid size (invflip flip perm) (invperm perm)
                  q p). }
    apply (rotatepoint_inverse size (invflip flip perm) (invperm perm)
             flip perm q p); [|by destruct Hq|done].
    by apply inverse_transform_sym.
Qed.

Lemma rotatearragement_bijection_witness :
  let size := mkSize 2 3 in
  let a : gset point := {[ [0; 0]; [1; 2] ]} in
  (∃ b, rotatearragement size 1 [1; 0]%nat a = Some b ∧
        length (elements b) = length (elements a) ∧
        gridplacement size b) ∧
  (∀ p, ingrid size p →
     ∃ q, rotatepoint size 1 [1; 0]%nat p = Some q ∧ ingrid size q) ∧
  (∀ p1 p2 q, ingrid size p1 → ingrid size p2 →
     rotatepoint size 1 [1; 0]%nat p1 = Some q →
     rotatepoint size 1 [1; 0]%nat p2 = Some q → p1 = p2) ∧
  (∀ q, ingrid size q →
     ∃ p, ingrid size p ∧ rotatepoint size 1 [1; 0]%nat p = Some q).
Proof.
  apply (rotatearragement_bijection (mkSize 2 3) 1 [1; 0]%nat
           {[ [0; 0]; [1; 2] ]}).
  - intros p [->%elem_of_singleton| ->%elem_of_singleton]%elem_of_union;
      (split; [reflexivity|repeat constructor; simpl; lia]).
  - simpl. lia.
  - simpl. apply perm_swap.
Defined.

(** ** Falling off the end of [istransformof] *)

(** C4: when no transform maps [a] onto [b], as for [a = {(0,0)}] and
    [b = {(1,1)}] on the 3x3 grid, the loops of [istransformof] finish
    without a [return] and the call yields [None], not [False]; the
    sibling [containstransform] does end in [return False]. *)
Theorem istransformof_falls_through :
  let size := mkSize 2 3 in
  let a : gset point := {[ [0; 0] ]} in
  let b : gset point := {[ [1; 1] ]} in
  gridplacement size a ∧ gridplacement size b ∧
  ¬ transform_of size a b ∧
  istransformof size a b = Some PyNone ∧
  istransformof size a b ≠ Some (PyBool false) ∧
  containstransform size [b] a = Some false.
Proof.
  intros size a b.
  assert (∀ c : gset point, c = a ∨ c = b → gridplacement size c) as Hg.
  { intros c [-> | ->] p ->%elem_of_singleton;
      (split; [reflexivity|repeat constructor; simpl; lia]). }
  assert (istransformof size a b = Some PyNone) as Hnone
    by (vm_compute; reflexivity).
  split_and!; [by apply Hg; left|by apply Hg; right| |done|by rewrite Hnone|].
  - intros Htr. apply istransformof_true in Htr; [by rewrite Hnone in Htr|].
    intros p Hp. by destruct (Hg a (or_introl eq_refl) p Hp).
  - vm_compute. reflexivity.
Qed.

(** ** Independence of the order in which a set is iterated

    Python does not fix the order in which a [set] is iterated; the model
    lists a set with [elements].  The uniqueness filter does not depend on
    that order ([hasuniquedistance_Permutation]), and neither does the
    rotation of a placement. *)

Lemma rotatearragement_order size flip perm a (l : list point) :
  l ≡ₚ elements a →
  list_to_set <$> mapM (rotatepoint size flip perm) l
  = rotatearragement size flip perm a.
Proof.
  intros Hl.
  destruct (rotatearragement size flip perm a) as [b|] eqn:Hb.
  - apply rotatearragement_Some in Hb as [Hsome Hb].
    destruct (mapM_is_Some_2 (rotatepoint size flip perm) l) as [k Hk].
    { apply Forall_forall. intros p Hp. apply Hsome, elem_of_elements.
      by rewrite <- Hl. }
    rewrite Hk. simpl. f_equal. apply set_eq. intros q.
    rewrite Hb, elem_of_list_to_set, (mapM_Some_elem_of _ _ _ _ Hk).
    by setoid_rewrite Hl; setoid_rewrite elem_of_elements.
  - destruct (mapM (rotatepoint size flip perm) l) as [k|] eqn:Hk; [|done].
    exfalso. assert (is_Some (rotatearragement size flip perm a)) as [? ?];
      [|congruence].
    apply rotatearragement_is_Some. intros p Hp%elem_of_elements.
    rewrite <- Hl in Hp.
    assert (is_Some (mapM (rotatepoint size flip perm) l)) as Hs by eauto.
    apply mapM_is_Some in Hs. by eapply Forall_forall in Hs.
Qed.

(** * Further properties of the engine *)

(** ** Squared distances *)

Lemma distance_squared_nil_r (p : point) : distance_squared p [] = 0.
Proof. by destruct p. Qed.

Lemma pow2_nonneg (z : Z) : 0 ≤ z ^ 2.
Proof. rewrite Z.pow_2_r. apply Z.square_nonneg. Qed.

Lemma pow2_eq_0 (z : Z) : z ^ 2 = 0 → z = 0.
Proof. rewrite Z.pow_2_r. intros [?|?]%Z.mul_eq_0; done. Qed.

Lemma distance_squared_nonneg (p q : point) : 0 ≤ distance_squared p q.
Proof.
  revert q. induction p as [|x p IH]; intros [|y q];
    [by vm_compute..|].
  rewrite distance_squared_cons. specialize (IH q).
  pose proof (pow2_nonneg (x - y)). lia.
Qed.

Lemma distance_squared_zero_iff (p q : point) :
  length p = length q → distance_squared p q = 0 ↔ p = q.
Proof.
  revert q. induction p as [|x p IH]; intros [|y q] Hl; try done.
  rewrite distance_squared_cons. simpl in Hl.
  pose proof (distance_squared_nonneg p q) as Hd.
  pose proof (pow2_nonneg (x - y)) as Hx.
  split.
  - intros Hz. assert (distance_squared p q = 0) as Hpq by lia.
    apply IH in Hpq; [|lia].
    assert ((x - y) ^ 2 = 0) as Hxy%pow2_eq_0 by lia.
    f_equal; [lia|done].
  - intros [= -> ->]. rewrite Z.sub_diag.
    rewrite (proj2 (IH q ltac:(lia))) by done. done.
Qed.

(** X1: [distance_squared] is symmetric and never negative, and for points
    with the same number of coordinates it is zero only between a point and
    itself. *)
Theorem distance_squared_metric :
  (∀ p q : point, distance_squared p q = distance_squared q p) ∧
  (∀ p q : point, 0 ≤ distance_squared p q) ∧
  (∀ p q : point,
     length p = length q → distance_squared p q = 0 ↔ p = q).
Proof.
  split_and!.
  - apply distance_squared_sym.
  - apply distance_squared_nonneg.
  - apply distance_squared_zero_iff.
Qed.

(** ** Transforms keep distances *)

Lemma sum_Permutation (l l' : list Z) : l ≡ₚ l' → sum l = sum l'.
Proof.
  induction 1 as [|x l l' _ IH|x y l|l l' l'' _ IH1 _ IH2].
  - done.
  - by rewrite !sum_cons, IH.
  - rewrite !sum_cons. lia.
  - congruence.
Qed.

Lemma doflip_diff size bit (x y : Z) :
  (doflip size x bit - doflip size y bit) ^ 2 = (x - y) ^ 2.
Proof. unfold doflip. case_decide; rewrite !Z.pow_2_r; lia. Qed.

Lemma distance_squared_seq (d : nat) (p q : point) :
  length p = d → length q = d →
  distance_squared p q =
  sum ((λ i, (nth i p 0 - nth i q 0) ^ 2) <$> seq 0 d).
Proof.
  intros Hp Hq. rewrite distance_squared_prefix, Hp, Hq.
  by rewrite Nat.min_id.
Qed.

(** Rotating and reflecting two points by the same transform leaves their
    squared distance unchanged. *)
Lemma rotatepoint_distance size flip perm (p q p' q' : point) :
  perm ≡ₚ seq 0 (dim size) →
  length p = dim size → length q = dim size →
  rotatepoint size flip perm p = Some p' →
  rotatepoint size flip perm q = Some q' →
  distance_squared p' q' = distance_squared p q.
Proof.
  intros Hperm Hp Hq [Hlp Hp']%rotatepoint_Some [Hlq Hq']%rotatepoint_Some.
  assert (length perm = dim size) as Hl by (by rewrite Hperm, length_seq).
  rewrite (distance_squared_seq (dim size) p' q') by congruence.
  rewrite (distance_squared_seq (dim size) p q) by done.
  rewrite <- (sum_Permutation _ _
    (fmap_Permutation (λ i, (nth i p 0 - nth i q 0) ^ 2) _ _ Hperm)).
  f_equal. apply list_eq. intros k. rewrite !list_lookup_fmap.
  destruct (decide (k < dim size)%nat) as [Hk|Hk].
  - rewrite lookup_seq_lt by done.
    destruct (lookup_lt_is_Some_2 perm k) as [i Hi]; [lia|].
    rewrite Hi. simpl. f_equal.
    destruct (Hp' k i Hi) as (x & Hx & Hpk).
    destruct (Hq' k i Hi) as (y & Hy & Hqk).
    rewrite (nth_lookup_Some _ _ _ _ Hpk), (nth_lookup_Some _ _ _ _ Hqk).
    rewrite (nth_lookup_Some _ _ _ _ Hx), (nth_lookup_Some _ _ _ _ Hy).
    apply doflip_diff.
  - rewrite lookup_seq_ge by lia. by rewrite lookup_ge_None_2 by lia.
Qed.

(** The points of a rotated placement, listed. *)
Lemma rotatearragement_elements size flip perm a b :
  perm ≡ₚ seq 0 (dim size) → (∀ p, p ∈ a → length p = dim size) →
  rotatearragement size flip perm a = Some b →
  ∃ l, Forall2 (λ p p', length p = dim size ∧
                        rotatepoint size flip perm p = Some p')
         (elements a) l ∧
       elements b ≡ₚ l.
Proof.
  intros Hperm Ha Hb. unfold rotatearragement in Hb.
  apply fmap_Some in Hb as (l & Hmap & ->). apply mapM_Some in Hmap.
  pose proof (inverse_transform_invperm _ _ Hperm flip) as Hinv.
  exists l. split.
  - apply Forall2_same_length_lookup. split; [by eapply Forall2_length|].
    intros i p p' Hi Hi'. split.
    + apply Ha, elem_of_elements. by eapply list_elem_of_lookup_2.
    + by eapply Forall2_lookup_lr in Hmap.
  - apply elements_list_to_set, NoDup_alt. intros i j q Hi Hj.
    destruct (Forall2_lookup_r _ _ _ i q Hmap Hi) as (p1 & Hp1 & Hq1).
    destruct (Forall2_lookup_r _ _ _ j q Hmap Hj) as (p2 & Hp2 & Hq2).
    assert (p1 = p2) as <-.
    { apply (rotatepoint_inverse _ _ _ _ _ _ _ Hinv) in Hq1, Hq2;
        [congruence|apply Ha, elem_of_elements..];
        by eapply list_elem_of_lookup_2. }
    eapply NoDup_lookup; [apply (NoDup_elements a)|done..].
Qed.

Lemma Forall2_combinations2 {A B} (R : A → B → Prop) l1 l2 :
  Forall2 R l1 l2 →
  Forall2 (λ pq pq', R pq.1 pq'.1 ∧ R pq.2 pq'.2)
    (combinations2 l1) (combinations2 l2).
Proof.
  induction 1 as [|x y l1 l2 Hxy Hl IH]; simpl; [constructor|].
  apply Forall2_app; [|done]. apply Forall2_fmap.
  eapply Forall2_impl; [exact Hl|]. by intros x' y' ?.
Qed.

Lemma rotatearragement_distances size flip perm a b :
  perm ≡ₚ seq 0 (dim size) → (∀ p, p ∈ a → length p = dim size) →
  rotatearragement size flip perm a = Some b →
  uncurry distance_squared <$> combinations2 (elements b)
  ≡ₚ uncurry distance_squared <$> combinations2 (elements a).
Proof.
  intros Hperm Ha Hb.
  destruct (rotatearragement_elements _ _ _ _ _ Hperm Ha Hb) as (l & Hl & Hbl).
  rewrite (combinations2_distances_Permutation _ _ Hbl).
  apply Forall2_combinations2 in Hl.
  assert (uncurry distance_squared <$> combinations2 l
          = uncurry distance_squared <$> combinations2 (elements a)) as ->;
    [|done].
  symmetry. apply list_eq_Forall2, Forall2_fmap.
  eapply Forall2_impl; [exact Hl|].
  intros [p q] [p' q'] [[Hp Hp'] [Hq Hq']]. simpl in *. symmetry.
  by eapply rotatepoint_distance.
Qed.

Lemma rotatearragement_hasuniquedistance size flip perm a b :
  perm ≡ₚ seq 0 (dim size) → (∀ p, p ∈ a → length p = dim size) →
  rotatearragement size flip perm a = Some b →
  hasuniquedistance (elements b) = hasuniquedistance (elements a).
Proof.
  intros Hperm Ha Hb.
  pose proof (rotatearragement_distances _ _ _ _ _ Hperm Ha Hb) as Hd.
  destruct (hasuniquedistance (elements b)) eqn:H1,
           (hasuniquedistance (elements a)) eqn:H2; try done.
  - apply hasuniquedistance_NoDup in H1. rewrite Hd in H1.
    apply hasuniquedistance_NoDup in H1. congruence.
  - apply hasuniquedistance_NoDup in H2. rewrite <- Hd in H2.
    apply hasuniquedistance_NoDup in H2. congruence.
Qed.

(** X2: a transform of the group keeps every squared distance, so the
    rotated placement has the same multiset of pairwise squared distances
    and passes the uniqueness filter exactly when the original does. *)
Theorem rotate_keeps_distances size flip perm a :
  gridplacement size a →
  perm ≡ₚ seq 0 (dim size) →
  (∀ p q p' q' : point,
     ingrid size p → ingrid size q →
     rotatepoint size flip perm p = Some p' →
     rotatepoint size flip perm q = Some q' →
     distance_squared p' q' = distance_squared p q) ∧
  ∃ b, rotatearragement size flip perm a = Some b ∧
       uncurry distance_squared <$> combinations2 (elements b)
         ≡ₚ uncurry distance_squared <$> combinations2 (elements a) ∧
       hasuniquedistance (elements b) = hasuniquedistance (elements a).
Proof.
  intros Ha Hperm.
  assert (∀ p, p ∈ a → length p = dim size) as Hl
    by (intros p; by apply gridplacement_length).
  split.
  - intros p q p' q' [Hp _] [Hq _]. by apply rotatepoint_distance.
  - destruct (rotatearragement_is_Some_perm size flip perm a Hperm Hl)
      as [b Hb].
    exists b. split; [done|]. split.
    + by eapply rotatearragement_distances.
    + by eapply rotatearragement_hasuniquedistance.
Qed.

Lemma rotate_keeps_distances_witness :
  let size := mkSize 2 3 in
  let a : gset point := {[ [0; 0]; [1; 2] ]} in
  (∀ p q p' q' : point,
     ingrid size p → ingrid size q →
     rotatepoint size 1 [1; 0]%nat p = Some p' →
     rotatepoint size 1 [1; 0]%nat q = Some q' →
     distance_squared p' q' = distance_squared p q) ∧
  ∃ b, rotatearragement size 1 [1; 0]%nat a = Some b ∧
       uncurry distance_squared <$> combinations2 (elements b)
         ≡ₚ uncurry distance_squared <$> combinations2 (elements a) ∧
       hasuniquedistance (elements b) = hasuniquedistance (elements a).
Proof.
  apply (rotate_keeps_distances (mkSize 2 3) 1 [1; 0]%nat
           {[ [0; 0]; [1; 2] ]}).
  - intros p [->%elem_of_singleton| ->%elem_of_singleton]%elem_of_union;
      (split; [reflexivity|repeat constructor; simpl; lia]).
  - simpl. apply perm_swap.
Defined.

(** ** Transforms compose *)

Lemma doflip_lxor size (x bit1 bit2 : Z) :
  bit1 = 0 ∨ bit1 = 1 → bit2 = 0 ∨ bit2 = 1 →
  doflip size (doflip size x bit1) bit2 = doflip size x (Z.lxor bit2 bit1).
Proof.
  intros [-> | ->] [-> | ->]; unfold doflip; simpl;
    repeat case_decide; lia.
Qed.

Lemma lxor_01 (bit1 bit2 : Z) :
  bit1 = 0 ∨ bit1 = 1 → bit2 = 0 ∨ bit2 = 1 →
  Z.lxor bit1 bit2 = 0 ∨ Z.lxor bit1 bit2 = 1.
Proof. intros [-> | ->] [-> | ->]; simpl; auto. Qed.

Lemma composeflip_bits flip1 flip2 perm2 :
  Forall (λ bit, bit = 0 ∨ bit = 1)
    (imap (λ j k, Z.lxor (flipbit flip2 j) (flipbit flip1 k)) perm2).
Proof.
  apply Forall_lookup. intros j bit Hj.
  apply list_lookup_imap_Some in Hj as (k & _ & ->).
  apply lxor_01; apply flipbit_01.
Qed.

Lemma composeflip_bound flip1 flip2 perm2 :
  0 ≤ composeflip flip1 flip2 perm2 < 2 ^ Z.of_nat (length perm2).
Proof.
  pose proof (bits_to_Z_bound _ (composeflip_bits flip1 flip2 perm2)) as Hb.
  by rewrite length_imap in Hb.
Qed.

Lemma flipbit_composeflip flip1 flip2 perm2 j k :
  perm2 !! j = Some k →
  flipbit (composeflip flip1 flip2 perm2) j =
  Z.lxor (flipbit flip2 j) (flipbit flip1 k).
Proof.
  intros Hj. apply flipbit_bits_to_Z; [apply composeflip_bits|].
  by rewrite list_lookup_imap, Hj.
Qed.

(** Two transforms applied one after the other act on a point as one
    transform. *)
Lemma rotatepoint_compose size flip1 perm1 flip2 perm2 (p q r : point) :
  rotatepoint size flip1 perm1 p = Some q →
  rotatepoint size flip2 perm2 q = Some r →
  rotatepoint size (composeflip flip1 flip2 perm2) (composeperm perm1 perm2) p
    = Some r.
Proof.
  intros [Hlq Hq]%rotatepoint_Some [Hlr Hr]%rotatepoint_Some.
  apply rotatepoint_Some. unfold composeperm at 1. rewrite length_fmap.
  split; [done|]. intros j i Hj. unfold composeperm in Hj.
  rewrite list_lookup_fmap in Hj.
  destruct (perm2 !! j) as [k|] eqn:Hk; [|done]. simpl in Hj.
  destruct (Hr j k Hk) as (y & Hy & Hrj).
  destruct (lookup_lt_is_Some_2 perm1 k) as [i' Hi'].
  { rewrite <- Hlq. by eapply lookup_lt_Some. }
  rewrite Hi' in Hj. simplify_eq/=.
  destruct (Hq k i Hi') as (x & Hx & Hqk). simplify_eq.
  exists x. split; [done|].
  rewrite (flipbit_composeflip _ _ _ _ _ Hk), Hrj. f_equal.
  apply doflip_lxor; apply flipbit_01.
Qed.

Lemma rotatearragement_compose size flip1 perm1 flip2 perm2 a b (c : gset point) :
  rotatearragement size flip1 perm1 a = Some b →
  rotatearragement size flip2 perm2 b = Some c →
  rotatearragement size (composeflip flip1 flip2 perm2)
    (composeperm perm1 perm2) a = Some c.
Proof.
  intros [Hs1 Hb]%rotatearragement_Some [Hs2 Hc]%rotatearragement_Some.
  assert (∀ p, p ∈ a → ∃ q r,
    rotatepoint size flip1 perm1 p = Some q ∧ q ∈ b ∧
    rotatepoint size flip2 perm2 q = Some r ∧ r ∈ c) as Hstep.
  { intros p Hp. destruct (Hs1 p Hp) as [q Hq].
    assert (q ∈ b) as Hqb by (apply Hb; eauto).
    destruct (Hs2 q Hqb) as [r Hr]. exists q, r. split_and!; [done..|].
    apply Hc. eauto. }
  apply rotatearragement_Some. split.
  - intros p Hp. destruct (Hstep p Hp) as (q & r & Hq & _ & Hr & _).
    rewrite (rotatepoint_compose _ _ _ _ _ _ _ _ Hq Hr). by eexists.
  - intros r. split.
    + intros (q & (p & Hp & Hq)%Hb & Hr)%Hc. exists p. split; [done|].
      by eapply rotatepoint_compose.
    + intros (p & Hp & Hr). destruct (Hstep p Hp) as (q & r' & Hq & _ & Hr' & ?).
      rewrite (rotatepoint_compose _ _ _ _ _ _ _ _ Hq Hr') in Hr.
      by simplify_eq.
Qed.

Lemma composeperm_Permutation (d : nat) (perm1 perm2 : list nat) :
  perm1 ≡ₚ seq 0 d → perm2 ≡ₚ seq 0 d → composeperm perm1 perm2 ≡ₚ seq 0 d.
Proof.
  intros H1 H2.
  assert (∀ j i, composeperm perm1 perm2 !! j = Some i →
    ∃ k, perm2 !! j = Some k ∧ perm1 !! k = Some i) as Hlk.
  { intros j i Hj. unfold composeperm in Hj. rewrite list_lookup_fmap in Hj.
    destruct (perm2 !! j) as [k|] eqn:Hk; [|done]. simpl in Hj.
    exists k. split; [done|].
    destruct (lookup_lt_is_Some_2 perm1 k) as [i' Hi'].
    { rewrite (perm_length d perm1 H1). by eapply perm_lookup_lt. }
    rewrite Hi' in Hj. by simplify_eq/=. }
  apply submseteq_length_Permutation.
  - apply NoDup_submseteq.
    + apply NoDup_alt. intros j1 j2 i (k1 & Hk1 & Hi1)%Hlk (k2 & Hk2 & Hi2)%Hlk.
      assert (k1 = k2) as ->.
      { apply (NoDup_lookup perm1 k1 k2 i); [by eapply perm_NoDup|done..]. }
      apply (NoDup_lookup perm2 j1 j2 k2); [by eapply perm_NoDup|done..].
    + intros i [j (k & _ & Hi)%Hlk]%list_elem_of_lookup.
      apply elem_of_seq. pose proof (perm_lookup_lt d perm1 H1 k i Hi). lia.
  - unfold composeperm. by rewrite length_fmap, length_seq, (perm_length d).
Qed.

(** ** Symmetry-equivalence is an equivalence *)

Lemma transform_of_sym size a b :
  (∀ p, p ∈ a → length p = dim size) →
  transform_of size a b → transform_of size b a.
Proof.
  intros Ha (flip & perm & Hflip & Hperm & Hb).
  exists (invflip flip perm), (invperm perm).
  split; [by apply invflip_bound|].
  split; [by apply invperm_Permutation|].
  eapply rotatearragement_inverse; [|done..].
  by apply inverse_transform_invperm.
Qed.

Lemma transform_of_trans size a b (c : gset point) :
  transform_of size a b → transform_of size b c → transform_of size a c.
Proof.
  intros (flip1 & perm1 & _ & Hperm1 & Hb) (flip2 & perm2 & _ & Hperm2 & Hc).
  exists (composeflip flip1 flip2 perm2), (composeperm perm1 perm2).
  pose proof (composeflip_bound flip1 flip2 perm2) as Hbound.
  rewrite (perm_length _ _ Hperm2) in Hbound.
  split; [done|]. split.
  - by apply composeperm_Permutation.
  - by eapply rotatearragement_compose.
Qed.

Lemma transform_of_lengths size a b :
  transform_of size a b → ∀ q, q ∈ b → length q = dim size.
Proof.
  intros (flip & perm & _ & Hperm & [_ Hb]%rotatearragement_Some) q
    (p & _ & Hq)%Hb.
  by rewrite (rotatepoint_length _ _ _ _ _ Hq), Hperm, length_seq.
Qed.

Lemma transform_of_gridplacement size a b :
  gridplacement size a → transform_of size a b → gridplacement size b.
Proof.
  intros Ha (flip & perm & _ & Hperm & [_ Hb]%rotatearragement_Some) q
    (p & Hp & Hq)%Hb.
  apply (rotatepoint_ingrid size flip perm p q); auto.
Qed.

(** X3: on placements of grid points, being a transform of one another is
    an equivalence relation: it is reflexive, symmetric and transitive, and
    a transform of a placement of grid points is again one. *)
Theorem transform_of_equivalence size :
  (∀ a, gridplacement size a → transform_of size a a) ∧
  (∀ a b, gridplacement size a → transform_of size a b →
          transform_of size b a ∧ gridplacement size b) ∧
  (∀ a b (c : gset point),
     transform_of size a b → transform_of size b c → transform_of size a c).
Proof.
  split_and!.
  - intros a Ha. apply transform_of_refl. intros p.
    by apply gridplacement_length.
  - intros a b Ha Hab. split.
    + apply transform_of_sym; [|done]. intros p.
      by apply gridplacement_length.
    + by eapply transform_of_gridplacement.
  - apply transform_of_trans.
Qed.

(** ** What the symmetry test decides *)

Lemma istransformof_sym_lengths size a b :
  (∀ p, p ∈ a → length p = dim size) →
  (∀ p, p ∈ b → length p = dim size) →
  istransformof size a b = istransformof size b a.
Proof.
  intros Ha Hb.
  destruct (istransformof_cases size a b Ha) as [[-> Hab]|[-> Hab]],
           (istransformof_cases size b a Hb) as [[-> Hba]|[-> Hba]];
    try done; exfalso.
  - by apply Hba, transform_of_sym.
  - by apply Hab, transform_of_sym.
Qed.

(** X4: on a placement [a] of grid points [istransformof] never raises; it
    returns [True] exactly when some [(flip, perm)] of the group rotates
    [a] onto [b], and [None] exactly when none does. *)
Theorem istransformof_decides size a b :
  gridplacement size a →
  (istransformof size a b = Some (PyBool true) ∨
   istransformof size a b = Some PyNone) ∧
  (istransformof size a b = Some (PyBool true) ↔
   ∃ flip perm,
     0 ≤ flip < 2 ^ Z.of_nat (dim size) ∧ perm ≡ₚ seq 0 (dim size) ∧
     rotatearragement size flip perm a = Some b) ∧
  (istransformof size a b = Some PyNone ↔
   ∀ flip perm,
     0 ≤ flip < 2 ^ Z.of_nat (dim size) → perm ≡ₚ seq 0 (dim size) →
     rotatearragement size flip perm a ≠ Some b).
Proof.
  intros Ha.
  assert (∀ p, p ∈ a → length p = dim size) as Hl
    by (intros p; by apply gridplacement_length).
  destruct (istransformof_cases size a b Hl) as [[-> Htr]|[-> Hno]].
  - split; [by left|]. split; [done|]. split; [done|].
    intros Hall. destruct Htr as (flip & perm & Hflip & Hperm & Hrot).
    by destruct (Hall flip perm).
  - split; [by right|]. split; [done|]. split; [|done].
    intros _ flip perm Hflip Hperm Hrot. apply Hno. by exists flip, perm.
Qed.

Lemma istransformof_decides_witness :
  let size := mkSize 2 3 in
  let a : gset point := {[ [0; 0]; [1; 2] ]} in
  let b : gset point := {[ [2; 0]; [0; 1] ]} in
  (istransformof size a b = Some (PyBool true) ∨
   istransformof size a b = Some PyNone) ∧
  (istransformof size a b = Some (PyBool true) ↔
   ∃ flip perm,
     0 ≤ flip < 2 ^ Z.of_nat (dim size) ∧ perm ≡ₚ seq 0 (dim size) ∧
     rotatearragement size flip perm a = Some b) ∧
  (istransformof size a b = Some PyNone ↔
   ∀ flip perm,
     0 ≤ flip < 2 ^ Z.of_nat (dim size) → perm ≡ₚ seq 0 (dim size) →
     rotatearragement size flip perm a ≠ Some b).
Proof.
  apply (istransformof_decides (mkSize 2 3) {[ [0; 0]; [1; 2] ]}
           {[ [2; 0]; [0; 1] ]}).
  intros p [->%elem_of_singleton| ->%elem_of_singleton]%elem_of_union;
    (split; [reflexivity|repeat constructor; simpl; lia]).
Defined.

(** X5: between two placements of grid points the symmetry test gives the
    same answer in both directions. *)
Theorem istransformof_symmetric size a b :
  gridplacement size a → gridplacement size b →
  istransformof size a b = istransformof size b a.
Proof.
  intros Ha Hb. apply istransformof_sym_lengths; intros p;
    by apply gridplacement_length.
Qed.

Lemma istransformof_symmetric_witness :
  let size := mkSize 2 3 in
  let a : gset point := {[ [0; 0]; [1; 2] ]} in
  let b : gset point := {[ [2; 0]; [0; 1] ]} in
  istransformof size a b = istransformof size b a.
Proof.
  apply (istransformof_symmetric (mkSize 2 3) {[ [0; 0]; [1; 2] ]}
           {[ [2; 0]; [0; 1] ]});
    intros p [->%elem_of_singleton| ->%elem_of_singleton]%elem_of_union;
    (split; [reflexivity|repeat constructor; simpl; lia]).
Defined.

(** X6: for a candidate [a] of grid points [containstransform] never
    raises and returns [True] exactly when [a] is a transform of an entry
    of [solutions]; against an empty list it returns [False] whatever [a]
    is. *)
Theorem containstransform_decides size solutions a :
  gridplacement size a →
  (containstransform size solutions a = Some true ∨
   containstransform size solutions a = Some false) ∧
  (containstransform size solutions a = Some true ↔
   ∃ b, b ∈ solutions ∧ transform_of size a b) ∧
  (∀ a' : gset point, containstransform size [] a' = Some false).
Proof.
  intros Ha.
  assert (∀ p, p ∈ a → length p = dim size) as Hl
    by (intros p; by apply gridplacement_length).
  destruct (containstransform_cases size solutions a Hl)
    as [[-> Hex]|[-> Hno]].
  - split; [by left|]. by split.
  - split; [by right|]. split; [|done]. split; [done|].
    intros (b & Hb & Htr). by destruct (Hno b Hb).
Qed.

Lemma containstransform_decides_witness :
  let size := mkSize 2 3 in
  let a : gset point := {[ [0; 0]; [1; 2] ]} in
  let solutions : list (gset point) := [ {[ [2; 0]; [0; 1] ]} ] in
  (containstransform size solutions a = Some true ∨
   containstransform size solutions a = Some false) ∧
  (containstransform size solutions a = Some true ↔
   ∃ b, b ∈ solutions ∧ transform_of size a b) ∧
  (∀ a' : gset point, containstransform size [] a' = Some false).
Proof.
  apply (containstransform_decides (mkSize 2 3) [ {[ [2; 0]; [0; 1] ]} ]
           {[ [0; 0]; [1; 2] ]}).
  intros p [->%elem_of_singleton| ->%elem_of_singleton]%elem_of_union;
    (split; [reflexivity|repeat constructor; simpl; lia]).
Defined.

(** ** The solutions represent every orbit once *)

Lemma solvegrid_step_rep size handled solutions (pieces : list point) :
  Forall (λ p, length p = dim size) pieces →
  solutions_rep size handled solutions →
  ∃ solutions',
    solvegrid_step size solutions pieces = Some solutions' ∧
    solutions_rep size (handled ++ [pieces]) solutions'.
Proof.
  intros Hp (Hinv & Hfrom & Hcover). unfold solvegrid_step.
  assert (∀ p, p ∈ (list_to_set pieces : gset point) → length p = dim size)
    as Hl.
  { intros p Hin%elem_of_list_to_set. by eapply Forall_forall in Hp. }
  assert (∀ s, s ∈ solutions →
    ∃ c, c ∈ handled ++ [pieces] ∧ s = list_to_set c) as Hfrom'.
  { intros s (c & Hc & ->)%Hfrom. exists c. split; [|done].
    apply elem_of_app. by left. }
  destruct (hasuniquedistance _) eqn:Hu.
  - destruct (containstransform_cases size solutions _ Hl)
      as [[-> Hex]|[-> Hnew]]; simpl; eexists; (split; [done|]).
    + split_and!; [done..|].
      intros c [Hc| ->%list_elem_of_singleton]%elem_of_app Hcu; auto.
    + split_and!.
      * by apply solutions_inv_snoc.
      * intros s [Hs| ->%list_elem_of_singleton]%elem_of_app; [auto|].
        exists pieces. split; [|done]. apply elem_of_app. right. left.
      * intros c [Hc| ->%list_elem_of_singleton]%elem_of_app Hcu.
        -- destruct (Hcover c Hc Hcu) as (s & Hs & Htr).
           exists s. split; [|done]. apply elem_of_app. by left.
        -- exists (list_to_set pieces). split.
           ++ apply elem_of_app. right. left.
           ++ by apply transform_of_refl.
  - eexists. split; [done|]. split_and!; [done..|].
    intros c [Hc| ->%list_elem_of_singleton]%elem_of_app Hcu; [auto|].
    congruence.
Qed.

Lemma solvegrid_loop_rep size handled solutions (cands : list (list point)) :
  Forall (Forall (λ p, length p = dim size)) cands →
  solutions_rep size handled solutions →
  ∃ solutions',
    solvegrid_loop size solutions cands = Some solutions' ∧
    solutions_rep size (handled ++ cands) solutions'.
Proof.
  intros Hc. revert handled solutions.
  induction Hc as [|c cands Hc _ IH]; intros handled solutions Hrep.
  - exists solutions. by rewrite app_nil_r.
  - destruct (solvegrid_step_rep size handled solutions c Hc Hrep)
      as (solutions' & Hstep & Hrep').
    simpl. rewrite Hstep. simpl.
    destruct (IH _ _ Hrep') as (solutions'' & Hrun & Hrep'').
    exists solutions''. split; [done|]. by rewrite <- (assoc (++)) in Hrep''.
Qed.

Lemma solvegrid_rep size (n : nat) :
  ∃ solutions,
    solvegrid size n = Some solutions ∧
    solutions_rep size (generatearrangements size n) solutions.
Proof.
  apply (solvegrid_loop_rep size [] []).
  - apply generatearrangements_lengths.
  - split; [apply solutions_inv_nil|]. split.
    + by intros s ?%elem_of_nil.
    + by intros c ?%elem_of_nil.
Qed.

(** A tuple produced by [generatearrangements], seen as a set. *)
Lemma generatearrangements_set size (n : nat) (c : list point) :
  c ∈ generatearrangements size n →
  gridplacement size (list_to_set c) ∧
  elements (list_to_set c : gset point) ≡ₚ c ∧ length c = n.
Proof.
  intros [Hs Hl]%elem_of_combinations. split_and!; [|
    apply elements_list_to_set;
    by eapply sublist_NoDup; [apply NoDup_generatepoints|]|done].
  intros p Hp%elem_of_list_to_set. apply elem_of_generatepoints.
  by eapply elem_of_sublist.
Qed.

(** Every placement of [n] grid points is the set of a generated tuple. *)
Lemma generatearrangements_set_complete size (c : gset point) :
  gridplacement size c →
  ∃ arr, arr ∈ generatearrangements size (length (elements c)) ∧
         list_to_set arr = c.
Proof.
  intros Hc.
  destruct (combinations_complete (generatepoints size) (elements c))
    as (arr & Harr & Hperm).
  - apply NoDup_elements.
  - intros p Hp%elem_of_elements. by apply elem_of_generatepoints, Hc.
  - exists arr. split; [done|]. apply set_eq. intros p.
    by rewrite elem_of_list_to_set, Hperm, elem_of_elements.
Qed.

Lemma solutions_rep_unrelated size handled solutions i j si sj :
  (∀ c, c ∈ handled → Forall (λ p, length p = dim size) c) →
  solutions_rep size handled solutions →
  i ≠ j → solutions !! i = Some si → solutions !! j = Some sj →
  ¬ transform_of size si sj.
Proof.
  intros Hlen ((Hd & _) & Hfrom & _) Hij Hi Hj Htr.
  destruct (decide (i < j)%nat) as [Hlt|Hge].
  - apply (Hd i j si sj Hlt Hi Hj). apply transform_of_sym; [|done].
    destruct (Hfrom si) as (c & Hc & ->); [by eapply list_elem_of_lookup_2|].
    intros p Hp%elem_of_list_to_set.
    by eapply Forall_forall in Hp; [|by apply Hlen].
  - apply (Hd j i sj si); [lia|done..].
Qed.

(** X7: [solvegrid] returns a list of placements; each is a set of
    [ncounters] distinct grid points that passes the uniqueness filter, and
    no two different entries are transforms of one another, in either
    direction. *)
Theorem solvegrid_sound size (n : nat) :
  ∃ solutions,
    solvegrid size n = Some solutions ∧
    (∀ s, s ∈ solutions →
       gridplacement size s ∧ length (elements s) = n ∧
       hasuniquedistance (elements s) = true) ∧
    (∀ i j si sj,
       i ≠ j → solutions !! i = Some si → solutions !! j = Some sj →
       ¬ transform_of size si sj) ∧
    NoDup solutions.
Proof.
  destruct (solvegrid_rep size n) as (solutions & Hrun & Hrep).
  exists solutions. split; [done|].
  assert (∀ c, c ∈ generatearrangements size n →
               Forall (λ p, length p = dim size) c) as Hlen.
  { intros c Hc. pose proof (generatearrangements_lengths size n) as Hall.
    by eapply Forall_forall in Hall. }
  assert (∀ s, s ∈ solutions → gridplacement size s) as Hgrid.
  { intros s Hs. destruct Hrep as (_ & Hfrom & _).
    destruct (Hfrom s Hs) as (c & Hc & ->).
    by destruct (generatearrangements_set size n c Hc). }
  split_and!.
  - intros s Hs. split; [by apply Hgrid|]. split.
    + destruct Hrep as (_ & Hfrom & _).
      destruct (Hfrom s Hs) as (c & Hc & ->).
      destruct (generatearrangements_set size n c Hc) as (_ & Hp & <-).
      by rewrite Hp.
    + destruct Hrep as ((_ & Hu) & _). by apply Hu.
  - intros i j si sj. by eapply solutions_rep_unrelated.
  - apply NoDup_alt. intros i j s Hi Hj.
    destruct (decide (i = j)) as [|Hne]; [done|]. exfalso.
    apply (solutions_rep_unrelated size _ _ i j s s Hlen Hrep Hne Hi Hj).
    apply transform_of_refl. intros p Hp.
    eapply gridplacement_length; [|done]. apply Hgrid.
    by eapply list_elem_of_lookup_2.
Qed.

(** X8: every placement of [ncounters] grid points with pairwise different
    distances is a transform of exactly one entry of the list returned by
    [solvegrid]: the solutions represent each symmetry class once. *)
Theorem solvegrid_complete size (c : gset point) :
  gridplacement size c →
  hasuniquedistance (elements c) = true →
  ∃ solutions i s,
    solvegrid size (length (elements c)) = Some solutions ∧
    solutions !! i = Some s ∧ transform_of size c s ∧
    ∀ j s', solutions !! j = Some s' → transform_of size c s' → j = i.
Proof.
  intros Hc Hu.
  destruct (solvegrid_rep size (length (elements c)))
    as (solutions & Hrun & Hrep).
  destruct (generatearrangements_set_complete size c Hc) as (arr & Harr & <-).
  pose proof Hrep as (_ & _ & Hcover).
  destruct (Hcover arr Harr Hu) as (s & [i Hi]%list_elem_of_lookup & Htr).
  exists solutions, i, s. split_and!; [done..|].
  intros j s' Hj Htr'. destruct (decide (j = i)) as [|Hne]; [done|]. exfalso.
  eapply (solutions_rep_unrelated size _ _ j i s' s); [|done..|].
  - intros c' Hc'.
    pose proof (generatearrangements_lengths size
                  (length (elements (list_to_set arr : gset point)))) as Hall.
    by eapply Forall_forall in Hall.
  - apply (transform_of_trans size s' (list_to_set arr) s); [|done].
    apply transform_of_sym; [|done]. intros p.
    by apply gridplacement_length.
Qed.

Lemma solvegrid_complete_witness :
  let size := mkSize 2 3 in
  let c : gset point := {[ [2; 2]; [2; 1]; [1; 0] ]} in
  ∃ solutions i s,
    solvegrid size (length (elements c)) = Some solutions ∧
    solutions !! i = Some s ∧ transform_of size c s ∧
    ∀ j s', solutions !! j = Some s' → transform_of size c s' → j = i.
Proof.
  apply (solvegrid_complete (mkSize 2 3) {[ [2; 2]; [2; 1]; [1; 0] ]}).
  - intros p [[->%elem_of_singleton| ->%elem_of_singleton]%elem_of_union
             | ->%elem_of_singleton]%elem_of_union;
      (split; [reflexivity|repeat constructor; simpl; lia]).
  - vm_compute. reflexivity.
Defined.

(** ** How many counters can have different distances *)

Lemma distance_squared_le (w : Z) (p q : point) :
  length p = length q →
  Forall (λ x, 0 ≤ x < w) p → Forall (λ x, 0 ≤ x < w) q →
  distance_squared p q ≤ Z.of_nat (length p) * (w - 1) ^ 2.
Proof.
  revert q. induction p as [|x p IH]; intros [|y q] Hl Hp Hq; try done.
  apply Forall_cons in Hp as [Hx Hp]. apply Forall_cons in Hq as [Hy Hq].
  rewrite distance_squared_cons. simpl length.
  specialize (IH q ltac:(simpl in Hl; lia) Hp Hq).
  assert ((x - y) ^ 2 ≤ (w - 1) ^ 2) as Hxy.
  { rewrite !Z.pow_2_r.
    assert (0 ≤ (w - 1 - (x - y)) * (w - 1 + (x - y))) as Hprod
      by (apply Z.mul_nonneg_nonneg; lia).
    lia. }
  lia.
Qed.

(** The squared distances of a placement that passes the filter are
    pairwise different values between [1] and [dim * (width - 1)^2]. *)
Lemma hasuniquedistance_pigeonhole size (pieces : list point) :
  NoDup pieces → Forall (ingrid size) pieces →
  hasuniquedistance pieces = true →
  Z.of_nat (binom (length pieces) 2)
    ≤ Z.of_nat (dim size) * (width size - 1) ^ 2.
Proof.
  intros Hnd Hgrid Hu%hasuniquedistance_NoDup.
  rewrite <- length_combinations2,
    <- (length_fmap (uncurry distance_squared)).
  set (bound := Z.of_nat (dim size) * (width size - 1) ^ 2).
  assert (uncurry distance_squared <$> combinations2 pieces ⊆+ seqZ 1 bound)
    as Hsub%submseteq_length.
  { apply NoDup_submseteq; [done|].
    intros v ([p q] & -> &
      (i & j & Hij & Hi & Hj)%elem_of_combinations2)%list_elem_of_fmap.
    destruct (Forall_lookup_1 _ _ _ _ Hgrid Hi) as [Hlp Hp].
    destruct (Forall_lookup_1 _ _ _ _ Hgrid Hj) as [Hlq Hq].
    apply elem_of_seqZ. simpl.
    pose proof (distance_squared_nonneg p q) as H0.
    pose proof (distance_squared_le (width size) p q
                  ltac:(congruence) Hp Hq) as Hle.
    rewrite Hlp in Hle.
    assert (distance_squared p q ≠ 0) as Hne.
    { intros Hz%distance_squared_zero_iff; [|congruence]. subst q.
      pose proof (NoDup_lookup _ _ _ _ Hnd Hi Hj). lia. }
    subst bound. lia. }
  rewrite length_seqZ in Hsub.
  assert (0 ≤ bound)
    by (apply Z.mul_nonneg_nonneg; [lia|apply pow2_nonneg]).
  lia.
Qed.

(** X9: a placement of [n] grid points can pass the uniqueness filter only
    if its [C(n, 2)] pairwise squared distances fit among the values
    [1 .. dim * (width - 1)^2]. *)
Theorem hasuniquedistance_bound size a :
  gridplacement size a →
  hasuniquedistance (elements a) = true →
  Z.of_nat (binom (length (elements a)) 2)
    ≤ Z.of_nat (dim size) * (width size - 1) ^ 2.
Proof.
  intros Ha Hu. apply hasuniquedistance_pigeonhole; [|by apply Forall_forall;
    intros p Hp%elem_of_elements; apply Ha|done].
  apply NoDup_elements.
Qed.

Lemma hasuniquedistance_bound_witness :
  let size := mkSize 2 3 in
  let a : gset point := {[ [2; 2]; [2; 1]; [1; 0] ]} in
  Z.of_nat (binom (length (elements a)) 2)
    ≤ Z.of_nat (dim size) * (width size - 1) ^ 2.
Proof.
  apply (hasuniquedistance_bound (mkSize 2 3) {[ [2; 2]; [2; 1]; [1; 0] ]}).
  - intros p [[->%elem_of_singleton| ->%elem_of_singleton]%elem_of_union
             | ->%elem_of_singleton]%elem_of_union;
      (split; [reflexivity|repeat constructor; simpl; lia]).
  - vm_compute. reflexivity.
Defined.

(** X10: when [C(ncounters, 2)] exceeds [dim * (width - 1)^2] there are
    more pairs than possible distances, and [solvegrid] returns the empty
    list. *)
Theorem solvegrid_too_many_counters size (n : nat) :
  Z.of_nat (dim size) * (width size - 1) ^ 2 < Z.of_nat (binom n 2) →
  solvegrid size n = Some [].
Proof.
  intros Hn. destruct (solvegrid_rep size n) as (solutions & -> & Hrep).
  f_equal. destruct solutions as [|s solutions]; [done|]. exfalso.
  destruct Hrep as ((_ & Hu) & Hfrom & _).
  destruct (Hfrom s ltac:(left)) as (c & Hc & ->).
  destruct (generatearrangements_set size n c Hc) as (Hgrid & Hperm & Hl).
  specialize (Hu _ ltac:(left)).
  pose proof (hasuniquedistance_pigeonhole size
                (elements (list_to_set c : gset point))
                (NoDup_elements _)) as Hbound.
  assert (length (elements (list_to_set c : gset point)) = n) as Hlen
    by (by rewrite Hperm).
  rewrite Hlen in Hbound.
  assert (Z.of_nat (binom n 2) ≤ Z.of_nat (dim size) * (width size - 1) ^ 2);
    [|lia].
  apply Hbound; [|done].
  apply Forall_forall. intros p Hp%elem_of_elements. by apply Hgrid.
Qed.

Lemma solvegrid_too_many_counters_witness :
  solvegrid (mkSize 2 3) 5 = Some [].
Proof.
  apply (solvegrid_too_many_counters (mkSize 2 3) 5). simpl. lia.
Defined.

(** ** When a point has too few coordinates *)




Lemma range_pow2_head (d : nat) : ∃ flips, range (2 ^ Z.of_nat d) = 0 :: flips.
Proof.
  unfold range. assert (0 < 2 ^ Z.of_nat d) by (apply Z.pow_pos_nonneg; lia).
  destruct (Z.to_nat (2 ^ Z.of_nat d)) as [|m] eqn:Hm; [lia|].
  simpl. by eexists.
Qed.

Lemma istransformof_short_point size a b (p : point) :
  p ∈ a → (length p < dim size)%nat → istransformof size a b = None.
Proof.
  intros Hp Hshort. unfold istransformof.
  destruct (range_pow2_head (dim size)) as [flips ->].
  destruct (permutations_head (seq 0 (dim size))) as [perms ->].
  assert (rotatearragement size 0 (seq 0 (dim size)) a = None) as Hrot.
  { apply eq_None_not_Some. intros Hsome.
    pose proof (proj1 (rotatearragement_is_Some _ _ _ _) Hsome p Hp) as Hrp.
    pose proof (proj1 (rotatepoint_is_Some _ _ _ _) Hrp (length p)) as Hlt.
    rewrite elem_of_seq in Hlt. lia. }
  simpl. by rewrite Hrot.
Qed.

(** X12: a candidate with a point of fewer than [dim] coordinates makes
    [istransformof] raise on its first transform, the identity; the error
    passes through [containstransform] unless [solutions] is empty, in which
    case [istransformof] is never called. *)
Theorem istransformof_index_error size a (p : point) :
  p ∈ a → (length p < dim size)%nat →
  (∀ b, istransformof size a b = None) ∧
  (∀ b solutions, containstransform size (b :: solutions) a = None) ∧
  containstransform size [] a = Some false.
Proof.
  intros Hp Hshort. split_and!; [| |done].
  - intros b. by eapply istransformof_short_point.
  - intros b solutions. unfold containstransform. simpl.
    by rewrite (istransformof_short_point size a b p).
Qed.

Lemma istransformof_index_error_witness :
  let size := mkSize 2 3 in
  let a : gset point := {[ [0] ]} in
  (∀ b, istransformof size a b = None) ∧
  (∀ b solutions, containstransform size (b :: solutions) a = None) ∧
  containstransform size [] a = Some false.
Proof.
  apply (istransformof_index_error (mkSize 2 3) {[ [0] ]} [0]).
  - by apply elem_of_singleton.
  - simpl. lia.
Defined.

(** ** How many transforms are tried *)

Lemma length_bind_const {A B} (f : A → list B) (l : list A) (c : nat) :
  (∀ x, x ∈ l → length (f x) = c) → length (l ≫= f) = (length l * c)%nat.
Proof.
  induction l as [|x l IH]; intros Hf; [done|].
  rewrite bind_cons, length_app, IH, Hf; [simpl; lia|left|].
  intros y ?. apply Hf. by right.
Qed.

Section permutations_count.
Context {A : Type}.
Implicit Types l : list A.


End permutations_count.


(** ** Counting at the edges *)

Lemma binom_sym (n k : nat) : (k ≤ n)%nat → binom n k = binom n (n - k).
Proof.
  intros Hk. pose proof (binom_fact n k Hk) as H1.
  pose proof (binom_fact n (n - k) ltac:(lia)) as H2.
  replace (n - (n - k))%nat with k in H2 by lia.
  pose proof (lt_O_fact k). pose proof (lt_O_fact (n - k)).
  apply (Nat.mul_cancel_r _ _ (fact k * fact (n - k))); [lia|]. lia.
Qed.

(** X14: for a width that is not negative the number reported by
    [numpositions] is the number of tuples [generatearrangements] yields,
    for every number of counters: [1] for none, [0] (and no tuple) for more
    counters than grid points; and choosing [n] points counts the same as
    choosing the [N - n] others. *)
Theorem numpositions_counts size (n : nat) :
  0 ≤ width size →
  let N := length (generatepoints size) in
  Z.of_nat N = width size ^ Z.of_nat (dim size) ∧
  numpositions size n = Z.of_nat (length (generatearrangements size n)) ∧
  numpositions size 0 = 1 ∧
  generatearrangements size 0 = [[]] ∧
  ((N < n)%nat →
     numpositions size n = 0 ∧ generatearrangements size n = []) ∧
  ((n ≤ N)%nat → numpositions size n = numpositions size (N - n)).
Proof.
  intros Hw N. subst N.
  split; [by apply length_generatepoints|].
  split; [by apply numpositions_length_combinations|].
  split; [by rewrite numpositions_length_combinations, length_combinations,
            binom_0_r|].
  split; [apply combinations_0|].
  split.
  - intros Hn.
    assert (length (generatearrangements size n) = 0%nat) as Hl
      by (unfold generatearrangements; rewrite length_combinations;
          by apply binom_gt).
    split; [|by apply nil_length_inv].
    rewrite numpositions_length_combinations by done.
    unfold generatearrangements in Hl. by rewrite Hl.
  - intros Hn. rewrite !numpositions_length_combinations by done.
    by rewrite !length_combinations, binom_sym.
Qed.

Lemma numpositions_counts_witness :
  let size := mkSize 2 3 in
  let N := length (generatepoints size) in
  Z.of_nat N = width size ^ Z.of_nat (dim size) ∧
  numpositions size 3 = Z.of_nat (length (generatearrangements size 3)) ∧
  numpositions size 0 = 1 ∧
  generatearrangements size 0 = [[]] ∧
  ((N < 3)%nat →
     numpositions size 3 = 0 ∧ generatearrangements size 3 = []) ∧
  ((3 ≤ N)%nat → numpositions size 3 = numpositions size (N - 3)).
Proof.
  apply (numpositions_counts (mkSize 2 3) 3). simpl. lia.
Defined.

(** ** The points, in order *)

Lemma StronglySorted_range (n : Z) : StronglySorted Z.lt (range n).
Proof.
  unfold range. apply (StronglySorted_fmap _ lt); [lia|].
  generalize (Z.to_nat n) 0%nat. intros m. induction m as [|m IH]; intros j.
  - constructor.
  - simpl. constructor; [apply IH|].
    apply Forall_forall. intros k Hk%elem_of_seq. lia.
Qed.

Lemma StronglySorted_product_replicate (d : nat) (l : list Z) :
  StronglySorted Z.lt l → StronglySorted lex_lt (product (replicate d l)).
Proof.
  intros Hl. induction d as [|d IH]; [repeat constructor|].
  rewrite product_replicate_S.
  generalize (product (replicate d l)) IH. intros ps Hps. clear IH.
  induction Hl as [|x l Hl IHl Hx]; [constructor|].
  rewrite bind_cons. apply StronglySorted_app_2; [|
    apply (StronglySorted_fmap _ lex_lt); [by right|done]|done].
  intros p1 p2 (p1' & -> & _)%list_elem_of_fmap
    (y & (p2' & -> & _)%list_elem_of_fmap & Hy)%list_elem_of_bind.
  left. by eapply Forall_forall in Hx.
Qed.

(** X15: [generatepoints] lists exactly the points with [dim] coordinates
    in [0 .. width-1], each once, in dictionary order (the last coordinate
    varies fastest); there are [width^dim] of them, a single empty point
    when [dim] is [0], and none when the width is not positive. *)
Theorem generatepoints_spec size :
  (∀ p, p ∈ generatepoints size ↔ ingrid size p) ∧
  NoDup (generatepoints size) ∧
  StronglySorted lex_lt (generatepoints size) ∧
  length (generatepoints size) = (Z.to_nat (width size) ^ dim size)%nat ∧
  (dim size = 0%nat → generatepoints size = [[]]) ∧
  (width size ≤ 0 → (0 < dim size)%nat → generatepoints size = []).
Proof.
  split_and!.
  - intros p. apply elem_of_generatepoints.
  - apply NoDup_generatepoints.
  - apply StronglySorted_product_replicate, StronglySorted_range.
  - unfold generatepoints.
    by rewrite length_product_replicate, length_range.
  - unfold generatepoints. by intros ->.
  - intros Hw Hd. apply nil_length_inv. unfold generatepoints.
    rewrite length_product_replicate, length_range.
    replace (Z.to_nat (width size)) with 0%nat by lia.
    apply Nat.pow_0_l. lia.
Qed.

(** ** Taking counters away *)

Lemma sublist_combinations2 {A} (l1 l2 : list A) :
  l1 `sublist_of` l2 → combinations2 l1 `sublist_of` combinations2 l2.
Proof.
  induction 1 as [|x l1 l2 Hl IH|x l1 l2 Hl IH]; simpl.
  - done.
  - apply sublist_app; [by apply fmap_sublist|done].
  - by apply sublist_inserts_l.
Qed.

Lemma hasuniquedistance_sublist (l1 l2 : list point) :
  l1 `sublist_of` l2 →
  hasuniquedistance l2 = true → hasuniquedistance l1 = true.
Proof.
  intros Hl H2%hasuniquedistance_NoDup. apply hasuniquedistance_NoDup.
  eapply sublist_NoDup; [exact H2|].
  by apply fmap_sublist, sublist_combinations2.
Qed.

Lemma hasuniquedistance_submseteq (l1 l2 : list point) :
  l1 ⊆+ l2 → hasuniquedistance l2 = true → hasuniquedistance l1 = true.
Proof.
  intros (l & Hp & Hs)%submseteq_sublist_r H2.
  rewrite (hasuniquedistance_Permutation _ _ Hp).
  by eapply hasuniquedistance_sublist.
Qed.

(** X16: taking counters away from a placement that passes the uniqueness
    filter leaves a placement that passes it; and with at most two counters
    there is at most one distance, so the filter always passes. *)
Theorem hasuniquedistance_subset :
  (∀ l1 l2 : list point,
     l1 ⊆+ l2 → hasuniquedistance l2 = true → hasuniquedistance l1 = true) ∧
  (∀ a b : gset point,
     a ⊆ b → hasuniquedistance (elements b) = true →
     hasuniquedistance (elements a) = true) ∧
  (∀ l : list point, (length l ≤ 2)%nat → hasuniquedistance l = true).
Proof.
  split_and!.
  - apply hasuniquedistance_submseteq.
  - intros a b Hab. by apply hasuniquedistance_submseteq, elements_submseteq.
  - intros [|p [|q [|r l]]] Hl; try done. simpl in Hl. lia.
Qed.

Lemma solvegrid_finds size (c : gset point) :
  gridplacement size c → hasuniquedistance (elements c) = true →
  ∃ solutions s,
    solvegrid size (length (elements c)) = Some solutions ∧ s ∈ solutions.
Proof.
  intros Hc Hu.
  destruct (solvegrid_rep size (length (elements c)))
    as (solutions & Hrun & _ & _ & Hcover).
  destruct (generatearrangements_set_complete size c Hc) as (arr & Harr & <-).
  destruct (Hcover arr Harr Hu) as (s & Hs & _). eauto.
Qed.

(** X17: if [solvegrid] finds nothing for some number of counters, it
    finds nothing for any larger number on the same grid. *)
Theorem solvegrid_monotone size (n m : nat) :
  (n ≤ m)%nat → solvegrid size n = Some [] → solvegrid size m = Some [].
Proof.
  intros Hnm Hn. destruct (solvegrid_rep size m) as (solutions & -> & Hrep).
  f_equal. destruct solutions as [|s solutions]; [done|]. exfalso.
  destruct Hrep as ((_ & Hu) & Hfrom & _).
  destruct (Hfrom s ltac:(left)) as (c & Hc & ->).
  destruct (generatearrangements_set size m c Hc) as (Hgrid & Hperm & Hl).
  specialize (Hu _ ltac:(left)).
  set (l := take n (elements (list_to_set c : gset point))).
  assert (l `sublist_of` elements (list_to_set c : gset point)) as Hsub
    by apply sublist_take.
  assert (NoDup l) as Hnd.
  { eapply sublist_NoDup; [|exact Hsub]. apply NoDup_elements. }
  pose proof (elements_list_to_set (C:=gset point) l Hnd) as Hel.
  destruct (solvegrid_finds size (list_to_set l)) as (sols & s' & Hrun & Hs').
  - intros p Hp%elem_of_list_to_set. apply Hgrid, elem_of_elements.
    by eapply elem_of_sublist.
  - rewrite (hasuniquedistance_Permutation _ _ Hel).
    by eapply hasuniquedistance_sublist.
  - rewrite Hel in Hrun. subst l. rewrite length_take, Hperm, Hl in Hrun.
    replace (n `min` m)%nat with n in Hrun by lia.
    rewrite Hn in Hrun. simplify_eq. by apply elem_of_nil in Hs'.
Qed.

Lemma solvegrid_monotone_witness : solvegrid (mkSize 2 3) 6 = Some [].
Proof.
  apply (solvegrid_monotone (mkSize 2 3) 5 6); [lia|].
  vm_compute. reflexivity.
Defined.

(** ** Which member of a symmetry class is kept *)

Lemma first_of_class_app size handled (extra : list (list point)) k c :
  (k < length handled)%nat →
  first_of_class size (handled ++ extra) k c ↔ first_of_class size handled k c.
Proof.
  intros Hk. unfold first_of_class. rewrite lookup_app_l by done.
  do 2 apply and_iff_compat_l. split; intros Hall k' c' Hk' Hc'.
  - apply (Hall k'); [done|]. by rewrite lookup_app_l by lia.
  - apply (Hall k'); [done|]. by rewrite lookup_app_l in Hc' by lia.
Qed.

Lemma first_of_class_last size handled (pieces c : list point) :
  first_of_class size (handled ++ [pieces]) (length handled) c ↔
  c = pieces ∧
  hasuniquedistance (elements (list_to_set pieces : gset point)) = true ∧
  ∀ c', c' ∈ handled →
    hasuniquedistance (elements (list_to_set c' : gset point)) = true →
    ¬ transform_of size (list_to_set pieces) (list_to_set c').
Proof.
  unfold first_of_class. rewrite list_lookup_middle by done. split.
  - intros ([= <-] & Hu & Hall). split_and!; [done..|].
    intros c' [k' Hk']%list_elem_of_lookup. apply (Hall k').
    + by eapply lookup_lt_Some.
    + by apply lookup_app_l_Some.
  - intros (-> & Hu & Hall). split_and!; [done..|].
    intros k' c' Hk' Hc'. apply (Hall c').
    rewrite lookup_app_l in Hc' by done. by eapply list_elem_of_lookup_2.
Qed.

Lemma first_of_class_lt size handled k c :
  first_of_class size handled k c → (k < length handled)%nat.
Proof. intros [Hk _]. by eapply lookup_lt_Some. Qed.

(** A candidate is a transform of an entry of [solutions] exactly when it
    is a transform of an earlier candidate that passes the filter. *)
Lemma solutions_rep_seen size handled solutions a :
  solutions_rep size handled solutions →
  (∃ b, b ∈ solutions ∧ transform_of size a b) ↔
  (∃ c', c' ∈ handled ∧
     hasuniquedistance (elements (list_to_set c' : gset point)) = true ∧
     transform_of size a (list_to_set c')).
Proof.
  intros ((_ & Hu) & Hfrom & Hcover). split.
  - intros (b & Hb & Htr). destruct (Hfrom b Hb) as (c' & Hc' & ->).
    exists c'. split_and!; [done| |done]. by apply Hu.
  - intros (c' & Hc' & Hcu & Htr).
    destruct (Hcover c' Hc' Hcu) as (s & Hs & Hcs).
    exists s. split; [done|]. by eapply transform_of_trans.
Qed.

Lemma solvegrid_step_first size handled solutions (pieces : list point) :
  Forall (λ p, length p = dim size) pieces →
  solutions_rep size handled solutions →
  solutions_first size handled solutions →
  ∃ solutions',
    solvegrid_step size solutions pieces = Some solutions' ∧
    solutions_first size (handled ++ [pieces]) solutions'.
Proof.
  intros Hp Hrep [Hsub Hfirst].
  pose proof (solutions_rep_seen size handled solutions
                (list_to_set pieces) Hrep) as Hseen.
  assert (∀ s, s ∈ solutions ↔
    ∃ k c, (k < length handled)%nat ∧
           first_of_class size (handled ++ [pieces]) k c ∧ s = list_to_set c)
    as Hold.
  { intros s. rewrite Hfirst. split.
    - intros (k & c & Hk & ->). exists k, c.
      pose proof (first_of_class_lt _ _ _ _ Hk).
      split_and!; [done| |done]. by apply first_of_class_app.
    - intros (k & c & Hlt & Hk & ->). exists k, c. split; [|done].
      by apply (first_of_class_app size handled [pieces]). }
  assert (∀ k c, first_of_class size (handled ++ [pieces]) k c →
    (k < length handled)%nat ∨
    (k = length handled ∧
     first_of_class size (handled ++ [pieces]) (length handled) c)) as Hsplit.
  { intros k c Hk. pose proof (first_of_class_lt _ _ _ _ Hk) as Hlt.
    rewrite length_app in Hlt. simpl in Hlt.
    destruct (decide (k = length handled)) as [->|]; [by right|left; lia]. }
  assert (∀ p, p ∈ (list_to_set pieces : gset point) → length p = dim size)
    as Hl.
  { intros p Hin%elem_of_list_to_set. by eapply Forall_forall in Hp. }
  unfold solvegrid_step.
  destruct (hasuniquedistance _) eqn:Hu;
    [destruct (containstransform_cases size solutions _ Hl)
       as [[-> Hex]|[-> Hnew]]|]; simpl; eexists; (split; [done|]).
  - split.
    { rewrite fmap_app. by apply sublist_inserts_r. }
    intros s. rewrite Hold. split.
    + intros (k & c & _ & Hk & ->). eauto.
    + intros (k & c & Hk & ->).
      destruct (Hsplit k c Hk) as [Hlt|[-> Hlast]]; [by eauto|]. exfalso.
      apply first_of_class_last in Hlast as (-> & _ & Hall).
      apply Hseen in Hex as (c' & Hc' & Hcu & Htr). by apply (Hall c').
  - split.
    { rewrite fmap_app. by apply sublist_app. }
    intros s. rewrite elem_of_app, Hold, list_elem_of_singleton. split.
    + intros [(k & c & _ & Hk & ->)| ->]; [by eauto|].
      exists (length handled), pieces. split; [|done].
      apply first_of_class_last. split_and!; [done..|].
      intros c' Hc' Hcu Htr.
      destruct (proj2 Hseen) as (b & Hb & Hab); [by eauto|].
      by apply (Hnew b).
    + intros (k & c & Hk & ->).
      destruct (Hsplit k c Hk) as [Hlt|[-> Hlast]]; [left; by eauto|].
      apply first_of_class_last in Hlast as (-> & _). by right.
  - split.
    { rewrite fmap_app. by apply sublist_inserts_r. }
    intros s. rewrite Hold. split.
    + intros (k & c & _ & Hk & ->). eauto.
    + intros (k & c & Hk & ->).
      destruct (Hsplit k c Hk) as [Hlt|[-> Hlast]]; [by eauto|]. exfalso.
      apply first_of_class_last in Hlast as (-> & Hcu & _). congruence.
Qed.

Lemma solvegrid_loop_first size handled solutions (cands : list (list point)) :
  Forall (Forall (λ p, length p = dim size)) cands →
  solutions_rep size handled solutions →
  solutions_first size handled solutions →
  ∃ solutions',
    solvegrid_loop size solutions cands = Some solutions' ∧
    solutions_first size (handled ++ cands) solutions'.
Proof.
  intros Hc. revert handled solutions.
  induction Hc as [|c cands Hc _ IH]; intros handled solutions Hrep Hfirst.
  - exists solutions. by rewrite app_nil_r.
  - destruct (solvegrid_step_rep size handled solutions c Hc Hrep)
      as (solutions' & Hstep & Hrep').
    destruct (solvegrid_step_first size handled solutions c Hc Hrep Hfirst)
      as (solutions'' & Hstep' & Hfirst').
    rewrite Hstep in Hstep'. simplify_eq.
    simpl. rewrite Hstep. simpl.
    destruct (IH _ _ Hrep' Hfirst') as (sols & Hrun & Hfin).
    exists sols. split; [done|]. by rewrite <- (assoc (++)) in Hfin.
Qed.

(** X18: of the placements that are transforms of one another [solvegrid]
    keeps the one generated first.  Its result lists, in generation order,
    exactly the generated placements that pass the uniqueness filter and
    are not a transform of an earlier generated placement that passes
    it. *)
Theorem solvegrid_keeps_first size (n : nat) :
  ∃ solutions,
    solvegrid size n = Some solutions ∧
    solutions `sublist_of` (list_to_set <$> generatearrangements size n) ∧
    ∀ s, s ∈ solutions ↔
      ∃ k c,
        generatearrangements size n !! k = Some c ∧ s = list_to_set c ∧
        hasuniquedistance (elements s) = true ∧
        ∀ k' c', (k' < k)%nat →
          generatearrangements size n !! k' = Some c' →
          hasuniquedistance (elements (list_to_set c' : gset point)) = true →
          ¬ transform_of size s (list_to_set c').
Proof.
  destruct (solvegrid_loop_first size [] [] (generatearrangements size n))
    as (solutions & Hrun & Hsub & Hfirst).
  - apply generatearrangements_lengths.
  - split; [apply solutions_inv_nil|]. split.
    + by intros s ?%elem_of_nil.
    + by intros c ?%elem_of_nil.
  - split; [done|]. intros s. split; [by intros ?%elem_of_nil|].
    by intros (k & c & [? _] & _).
  - exists solutions. split; [done|]. split; [done|].
    intros s. rewrite Hfirst. split.
    + intros (k & c & (Hk & Hu & Hall) & ->). by exists k, c.
    + intros (k & c & Hk & -> & Hu & Hall). by exists k, c.
Qed.

(** ** Drawing a placement *)

Lemma filter_bind {A B} (P : B → Prop) `{!∀ x, Decision (P x)}
    (f : A → list B) (l : list A) :
  filter P (l ≫= f) = l ≫= (λ x, filter P (f x)).
Proof.
  induction l as [|x l IH]; [done|]. by rewrite !bind_cons, filter_app, IH.
Qed.

Lemma bind_ext_elem_of {A B} (f g : A → list B) (l : list A) :
  (∀ x, x ∈ l → f x = g x) → l ≫= f = l ≫= g.
Proof.
  induction l as [|x l IH]; intros Hfg; [done|].
  rewrite !bind_cons, IH, Hfg; [done|left|]. intros y ?. apply Hfg. by right.
Qed.

Lemma bind_bind {A B C} (f : A → list B) (g : B → list C) (l : list A) :
  (l ≫= f) ≫= g = l ≫= (λ x, f x ≫= g).
Proof.
  induction l as [|x l IH]; [done|]. by rewrite !bind_cons, bind_app, IH.
Qed.

Lemma marks_mark a (p : point) : filter is_mark (mark a p) = mark a p.
Proof. unfold mark. by case_decide. Qed.

Lemma length_mark a (p : point) : length (mark a p) = 1%nat.
Proof. unfold mark. by case_decide. Qed.

Lemma marks_printarrangement size a :
  dim size = 2%nat ∨ dim size = 3%nat →
  filter is_mark (printarrangement size a) = cells size ≫= mark a.
Proof.
  intros [Hd|Hd]; unfold printarrangement, cells.
  - rewrite !decide_True by done. rewrite filter_bind, bind_bind.
    apply bind_ext_elem_of. intros y _.
    rewrite filter_app, filter_bind, bind_bind.
    change (filter is_mark [Chr newline]) with (@nil printed).
    rewrite app_nil_r. apply bind_ext_elem_of. intros x _.
    by rewrite bind_singleton, marks_mark.
  - rewrite decide_False, !decide_True by (done || lia).
    rewrite decide_False by lia. rewrite decide_True by done.
    rewrite filter_bind, bind_bind.
    apply bind_ext_elem_of. intros y _.
    rewrite filter_app, filter_bind, bind_bind.
    change (filter is_mark [Chr newline]) with (@nil printed).
    rewrite app_nil_r. apply bind_ext_elem_of. intros z _.
    rewrite filter_app, filter_bind, bind_bind.
    change (filter is_mark (text "  ")) with (@nil printed).
    rewrite app_nil_r. apply bind_ext_elem_of. intros x _.
    by rewrite bind_singleton, marks_mark.
Qed.

Lemma elem_of_cells size (p : point) :
  dim size = 2%nat ∨ dim size = 3%nat → p ∈ cells size ↔ ingrid size p.
Proof.
  intros [Hd|Hd]; unfold cells, ingrid.
  - rewrite !decide_True by done. rewrite Hd. split.
    + intros (y & (x & ->%list_elem_of_singleton & Hx%elem_of_range)
                     %list_elem_of_bind
                & Hy%elem_of_range)%list_elem_of_bind.
      split; [done|]. rewrite !Forall_cons, Forall_nil. lia.
    + intros [Hl Hp]. destruct p as [|x [|y [|? ?]]]; try done.
      apply Forall_cons in Hp as [Hx Hp]. apply Forall_cons in Hp as [Hy _].
      apply list_elem_of_bind. exists y. split; [|by apply elem_of_range].
      apply list_elem_of_bind. exists x. split; [|by apply elem_of_range].
      by apply list_elem_of_singleton.
  - rewrite decide_False by lia. rewrite decide_True by done. rewrite Hd.
    split.
    + intros (y & (z & (x & ->%list_elem_of_singleton & Hx%elem_of_range)
                          %list_elem_of_bind
                     & Hz%elem_of_range)%list_elem_of_bind
                & Hy%elem_of_range)%list_elem_of_bind.
      split; [done|]. rewrite !Forall_cons, Forall_nil. lia.
    + intros [Hl Hp]. destruct p as [|x [|y [|z [|? ?]]]]; try done.
      apply Forall_cons in Hp as [Hx Hp]. apply Forall_cons in Hp as [Hy Hp].
      apply Forall_cons in Hp as [Hz _].
      apply list_elem_of_bind. exists y. split; [|by apply elem_of_range].
      apply list_elem_of_bind. exists z. split; [|by apply elem_of_range].
      apply list_elem_of_bind. exists x. split; [|by apply elem_of_range].
      by apply list_elem_of_singleton.
Qed.

Lemma NoDup_cells size : NoDup (cells size).
Proof.
  unfold cells. repeat case_decide; [| |constructor].
  - apply NoDup_bind; [|intros y _|apply NoDup_range].
    + intros y1 y2 p _ _
        (x1 & ->%list_elem_of_singleton & _)%list_elem_of_bind
        (x2 & [= _ ->]%list_elem_of_singleton & _)%list_elem_of_bind. done.
    + apply NoDup_bind; [|intros x _; apply NoDup_singleton|apply NoDup_range].
      intros x1 x2 p _ _ ->%list_elem_of_singleton
        [= ->]%list_elem_of_singleton. done.
  - apply NoDup_bind; [|intros y _|apply NoDup_range].
    + intros y1 y2 p _ _
        (z1 & (x1 & ->%list_elem_of_singleton & _)%list_elem_of_bind & _)
          %list_elem_of_bind
        (z2 & (x2 & [= _ -> _]%list_elem_of_singleton & _)%list_elem_of_bind
            & _)%list_elem_of_bind. done.
    + apply NoDup_bind; [|intros z _|apply NoDup_range].
      * intros z1 z2 p _ _
          (x1 & ->%list_elem_of_singleton & _)%list_elem_of_bind
          (x2 & [= _ ->]%list_elem_of_singleton & _)%list_elem_of_bind. done.
      * apply NoDup_bind;
          [|intros x _; apply NoDup_singleton|apply NoDup_range].
        intros x1 x2 p _ _ ->%list_elem_of_singleton
          [= ->]%list_elem_of_singleton. done.
Qed.

Lemma stars_marks (out : list printed) :
  filter is_star out = filter is_star (filter is_mark out).
Proof.
  induction out as [|t out IH]; [done|].
  rewrite !filter_cons. destruct t as [c|?]; simpl; [|done].
  destruct (bool_decide (c = "*"%char)) eqn:Hc; simpl.
  - rewrite filter_cons. simpl. rewrite Hc. simpl. by rewrite IH.
  - destruct (bool_decide (c = "."%char)); simpl; [|done].
    rewrite filter_cons. simpl. by rewrite Hc.
Qed.

Lemma stars_bind_mark a (l : list point) :
  length (filter is_star (l ≫= mark a)) = length (filter (λ p, p ∈ a) l).
Proof.
  induction l as [|p l IH]; [done|].
  rewrite bind_cons, filter_app, length_app, IH, filter_cons.
  unfold mark. by case_decide.
Qed.

Lemma bind_mark_inj a b (l : list point) :
  l ≫= mark a = l ≫= mark b → ∀ p, p ∈ l → p ∈ a ↔ p ∈ b.
Proof.
  induction l as [|p l IH]; intros Heq q Hq; [by apply elem_of_nil in Hq|].
  rewrite !bind_cons in Heq.
  apply app_inj_1 in Heq as [Hp Hl]; [|by rewrite !length_mark].
  apply elem_of_cons in Hq as [->|Hq]; [|by apply IH].
  unfold mark in Hp. by repeat case_decide.
Qed.

Lemma length_cells size :
  dim size = 2%nat ∨ dim size = 3%nat →
  length (cells size) = length (generatepoints size).
Proof.
  intros Hd. apply Permutation_length, NoDup_Permutation.
  - apply NoDup_cells.
  - apply NoDup_generatepoints.
  - intros p. by rewrite elem_of_cells, elem_of_generatepoints.
Qed.

(** X19: on a grid of dimension 2 or 3 [printarrangement] draws one mark
    per cell of the grid, a star for every point of a placement of grid
    points and for nothing else, and two different placements of grid
    points never give the same drawing. *)
Theorem printarrangement_picture size a :
  dim size = 2%nat ∨ dim size = 3%nat →
  gridplacement size a →
  length (filter is_mark (printarrangement size a))
    = length (generatepoints size) ∧
  length (filter is_star (printarrangement size a)) = length (elements a) ∧
  ∀ b, gridplacement size b →
       printarrangement size a = printarrangement size b → a = b.
Proof.
  intros Hd Ha. split_and!.
  - rewrite marks_printarrangement by done.
    rewrite (length_bind_const _ _ 1) by (intros p _; apply length_mark).
    rewrite Nat.mul_1_r. by apply length_cells.
  - rewrite stars_marks, marks_printarrangement, stars_bind_mark by done.
    apply Permutation_length, NoDup_Permutation.
    + apply NoDup_filter, NoDup_cells.
    + apply NoDup_elements.
    + intros p. rewrite list_elem_of_filter, elem_of_elements, elem_of_cells
        by done. split; [by intros [? _]|]. intros Hp. split; [done|].
      by apply Ha.
  - intros b Hb Heq. apply (f_equal (filter is_mark)) in Heq.
    rewrite !marks_printarrangement in Heq by done.
    pose proof (bind_mark_inj a b _ Heq) as Hiff.
    apply set_eq. intros p. split; intros Hp; apply Hiff;
      try done; apply elem_of_cells; auto.
Qed.

Lemma printarrangement_picture_witness :
  let size := mkSize 2 3 in
  let a : gset point := {[ [0; 0]; [1; 2] ]} in
  length (filter is_mark (printarrangement size a))
    = length (generatepoints size) ∧
  length (filter is_star (printarrangement size a)) = length (elements a) ∧
  ∀ b, gridplacement size b →
       printarrangement size a = printarrangement size b → a = b.
Proof.
  apply (printarrangement_picture (mkSize 2 3) {[ [0; 0]; [1; 2] ]}).
  - by left.
  - intros p [->%elem_of_singleton| ->%elem_of_singleton]%elem_of_union;
      (split; [reflexivity|repeat constructor; simpl; lia]).
Defined.

(** ** Printing while solving *)

Lemma solvegrid_loop_out_spec (verbose : bool) size solutions
    (out : list printed) (cands : list (list point)) :
  match solvegrid_loop size solutions cands with
  | None => solvegrid_loop_out verbose size (solutions, out) cands = None
  | Some solutions' =>
      ∃ added,
        solutions' = solutions ++ added ∧
        solvegrid_loop_out verbose size (solutions, out) cands =
          Some (solutions',
                out ++ if verbose then added ≫= solution_block size else [])
  end.
Proof.
  revert solutions out. induction cands as [|c cands IH]; intros solutions out.
  - simpl. exists []. rewrite !app_nil_r. split; [done|].
    by destruct verbose; rewrite app_nil_r.
  - simpl. unfold solvegrid_step, solvegrid_step_out.
    destruct (hasuniquedistance _); [|exact (IH solutions out)].
    destruct (containstransform size solutions _) as [[|]|]; simpl;
      [exact (IH solutions out)| |done].
    destruct verbose; simpl.
    + match goal with
      | |- context [solvegrid_loop_out true size (?s, ?o) cands] =>
          specialize (IH s o)
      end.
      destruct (solvegrid_loop size _ cands) as [solutions'|]; [|done].
      destruct IH as (added & -> & ->).
      exists (list_to_set c :: added). rewrite <- !(assoc (++)). split; [done|].
      by rewrite bind_cons.
    + specialize (IH (solutions ++ [list_to_set c]) out).
      destruct (solvegrid_loop size _ cands) as [solutions'|]; [|done].
      destruct IH as (added & -> & ->).
      exists (list_to_set c :: added). by rewrite <- !(assoc (++)).
Qed.

(** X20: [args.verbose] does not change the list [solvegrid] returns.
    Without it nothing is printed; with it the output is, for each returned
    solution in turn, a line of five dashes, the drawing of the solution
    and an empty line. *)
Theorem solvegrid_out_spec (verbose : bool) size (n : nat) :
  ∃ solutions,
    solvegrid size n = Some solutions ∧
    solvegrid_out verbose size n =
      Some (solutions,
            if verbose then solutions ≫= solution_block size else []).
Proof.
  destruct (solvegrid_rep size n) as (solutions & Hrun & _).
  exists solutions. split; [done|]. unfold solvegrid, solvegrid_out in *.
  pose proof (solvegrid_loop_out_spec verbose size [] []
                (generatearrangements size n)) as Hout.
  rewrite Hrun in Hout. by destruct Hout as (added & -> & ->).
Qed.

(** ** What is reported, and the edges of the search *)

(** X21: for a width that is not negative, [solvegrid] never returns more
    solutions than the number of arrangements [numpositions] reports. *)
Theorem solvegrid_count_le size (n : nat) :
  0 ≤ width size →
  ∃ solutions,
    solvegrid size n = Some solutions ∧
    Z.of_nat (length solutions) ≤ numpositions size n.
Proof.
  intros Hw.
  destruct (solvegrid_loop_first size [] [] (generatearrangements size n))
    as (solutions & Hrun & Hsub & _).
  - apply generatearrangements_lengths.
  - split; [apply solutions_inv_nil|]. split.
    + by intros s ?%elem_of_nil.
    + by intros c ?%elem_of_nil.
  - split; [done|]. intros s. split; [by intros ?%elem_of_nil|].
    by intros (k & c & [? _] & _).
  - exists solutions. split; [done|].
    apply sublist_length in Hsub. rewrite length_fmap in Hsub. simpl in Hsub.
    rewrite numpositions_length_combinations by done.
    unfold generatearrangements in Hsub. lia.
Qed.

Lemma solvegrid_count_le_witness :
  ∃ solutions,
    solvegrid (mkSize 2 3) 3 = Some solutions ∧
    Z.of_nat (length solutions) ≤ numpositions (mkSize 2 3) 3.
Proof. apply (solvegrid_count_le (mkSize 2 3) 3). simpl. lia. Defined.

(** X22: with no counters [solvegrid] returns the empty placement as the
    only solution; with more counters than the grid has points it returns
    nothing. *)
Theorem solvegrid_edges size :
  solvegrid size 0 = Some [∅] ∧
  ∀ n, (length (generatepoints size) < n)%nat → solvegrid size n = Some [].
Proof.
  split.
  - unfold solvegrid, generatearrangements. rewrite combinations_0. simpl.
    unfold solvegrid_step. simpl. by rewrite elements_empty.
  - intros n Hn. unfold solvegrid, generatearrangements.
    assert (combinations (generatepoints size) n = []) as ->; [|done].
    apply nil_length_inv. rewrite length_combinations. by apply binom_gt.
Qed.

(** ** Reflection masks beyond [2^dim] *)

Lemma flipbit_testbit flip k :
  flipbit flip k = Z.b2z (Z.testbit flip (Z.of_nat k)).
Proof.
  unfold flipbit. rewrite land_1, <- Z.bit0_mod, Z.shiftr_spec by lia.
  by rewrite Z.add_0_l.
Qed.

Lemma bitgen_mod flip (n : nat) :
  bitgen (flip `mod` 2 ^ Z.of_nat n) n = bitgen flip n.
Proof.
  apply list_eq. intros k. destruct (decide (k < n)%nat) as [Hk|Hk].
  - rewrite !bitgen_lookup, !flipbit_testbit by done.
    by rewrite Z.mod_pow2_bits_low by lia.
  - by rewrite !lookup_ge_None_2 by (rewrite length_bitgen; lia).
Qed.

(** X23: only the lowest [dim] bits of the reflection mask are used, so a
    mask outside [0 .. 2^dim - 1], negative ones included, rotates every
    placement like its remainder modulo [2^dim]: the masks that
    [istransformof] tries leave no reflection out. *)
Theorem rotate_flip_mod size flip perm a :
  perm ≡ₚ seq 0 (dim size) →
  0 ≤ flip `mod` 2 ^ Z.of_nat (dim size) < 2 ^ Z.of_nat (dim size) ∧
  (∀ p : point,
     rotatepoint size (flip `mod` 2 ^ Z.of_nat (dim size)) perm p
     = rotatepoint size flip perm p) ∧
  rotatearragement size (flip `mod` 2 ^ Z.of_nat (dim size)) perm a
  = rotatearragement size flip perm a.
Proof.
  intros Hperm.
  assert (length perm = dim size) as Hl by (by rewrite Hperm, length_seq).
  assert (∀ p : point,
    rotatepoint size (flip `mod` 2 ^ Z.of_nat (dim size)) perm p
    = rotatepoint size flip perm p) as Hp.
  { intros p. unfold rotatepoint. by rewrite Hl, bitgen_mod. }
  split; [apply Z.mod_pos_bound, Z.pow_pos_nonneg; lia|]. split; [done|].
  unfold rotatearragement. f_equal. by apply mapM_ext.
Qed.

Lemma rotate_flip_mod_witness :
  let size := mkSize 2 3 in
  let a : gset point := {[ [0; 0]; [1; 2] ]} in
  0 ≤ (-3) `mod` 2 ^ Z.of_nat (dim size) < 2 ^ Z.of_nat (dim size) ∧
  (∀ p : point,
     rotatepoint size ((-3) `mod` 2 ^ Z.of_nat (dim size)) [1; 0]%nat p
     = rotatepoint size (-3) [1; 0]%nat p) ∧
  rotatearragement size ((-3) `mod` 2 ^ Z.of_nat (dim size)) [1; 0]%nat a
  = rotatearragement size (-3) [1; 0]%nat a.
Proof.
  apply (rotate_flip_mod (mkSize 2 3) (-3) [1; 0]%nat {[ [0; 0]; [1; 2] ]}).
  simpl. apply perm_swap.
Defined.
